(** * Minesweeper knowledge engine: a shallow embedding of [minesweeper.py]

    The development follows the three classes of the source file:
    - [Minesweeper]: the board, kept here as the set of its mines;
    - [Sentence]: a set of cells with a count;
    - [MinesweeperAI]: the knowledge base, with its marking, clean-up,
      inference and move-selection methods.

    Python sets are [gset]s.  A Python [for] over a set visits its members
    in an unspecified order; the embedding visits them in the order of
    [elements], and every lemma about such a loop is proved for an
    arbitrary list.  The list [knowledge] holds references to sentence
    objects that are mutated in place; since the list is only ever
    appended to, an object is identified with its index. *)

From stdpp Require Import gmap list sets sorting.

Set Warnings "-clear-no-such-hyp".

Local Open Scope Z_scope.

(** A cell is a pair [(i, j)] of Python integers. *)
Abbreviation Cell := (Z * Z)%type.

(** [range(a, b)] for integers. *)
Definition range (a b : Z) : list Z := seqZ a (b - a).

(** ** The board *)

Module Minesweeper.

(** [board[i][j]] is [True] exactly for the cells of [mines]; the board
    is represented by that set. *)
Record t := mk { height : Z; width : Z; mines : gset Cell }.

Definition is_mine (cell : Cell) (g : t) : bool :=
  bool_decide (cell ∈ mines g).

(** The double loop of [nearby_mines], with its [continue] on the cell
    itself and its bounds test. *)
Definition nearby_mines (cell : Cell) (g : t) : Z :=
  foldl (fun count i =>
    foldl (fun count j =>
      if bool_decide ((i, j) = cell) then count
      else if bool_decide (0 <= i < height g) && bool_decide (0 <= j < width g)
           then (if is_mine (i, j) g then count + 1 else count)
           else count)
      count (range (cell.2 - 1) (cell.2 + 2)))
    0 (range (cell.1 - 1) (cell.1 + 2)).

End Minesweeper.

(** ** Sentences *)

Module Sentence.

Record t := mk { cells : gset Cell; count : Z }.

(** [__eq__] *)
Definition eq (self other : t) : bool :=
  bool_decide (cells self = cells other) && bool_decide (count self = count other).

(** [len(self.cells)] *)
Definition len (self : t) : Z := Z.of_nat (size (cells self)).

Definition known_mines (self : t) : option (gset Cell) :=
  if bool_decide (len self = count self) then Some (cells self) else None.

Definition known_safes (self : t) : option (gset Cell) :=
  if bool_decide (count self = 0) then Some (cells self) else None.

Definition mark_mine (cell : Cell) (self : t) : t :=
  if bool_decide (cell ∈ cells self)
  then mk (cells self ∖ {[cell]}) (count self - 1)
  else self.

Definition mark_safe (cell : Cell) (self : t) : t :=
  if bool_decide (cell ∈ cells self)
  then mk (cells self ∖ {[cell]}) (count self)
  else self.

End Sentence.

Global Instance sentence_eq_dec : EqDecision Sentence.t.
Proof. solve_decision. Defined.

(** Truth value of the result of [known_mines] / [known_safes]: [None]
    and the empty set are false. *)
Definition truthy (o : option (gset Cell)) : bool :=
  match o with
  | Some X => bool_decide (X ≠ ∅)
  | None => false
  end.

(** [itertools.combinations(l, 2)] *)
Fixpoint combinations2 {A} (l : list A) : list (A * A) :=
  match l with
  | [] => []
  | x :: r => map (pair x) r ++ combinations2 r
  end.

(** ** The knowledge base *)

Module MinesweeperAI.

Record t := mk {
  height : Z;
  width : Z;
  moves_made : gset Cell;
  mines : gset Cell;
  safes : gset Cell;
  knowledge : list Sentence.t;
  KB_has_changed : bool
}.

Definition set_moves_made (X : gset Cell) (self : t) : t :=
  mk (height self) (width self) X (mines self) (safes self)
     (knowledge self) (KB_has_changed self).
Definition set_mines (X : gset Cell) (self : t) : t :=
  mk (height self) (width self) (moves_made self) X (safes self)
     (knowledge self) (KB_has_changed self).
Definition set_safes (X : gset Cell) (self : t) : t :=
  mk (height self) (width self) (moves_made self) (mines self) X
     (knowledge self) (KB_has_changed self).
Definition set_knowledge (k : list Sentence.t) (self : t) : t :=
  mk (height self) (width self) (moves_made self) (mines self) (safes self)
     k (KB_has_changed self).
Definition set_changed (b : bool) (self : t) : t :=
  mk (height self) (width self) (moves_made self) (mines self) (safes self)
     (knowledge self) b.

(** [self.empty] *)
Definition empty : Sentence.t := Sentence.mk ∅ 0.

(** [all_possible_moves], computed once by [__init__] and never
    modified afterwards. *)
Definition all_possible_moves (self : t) : gset Cell :=
  foldl (fun all_moves i =>
    foldl (fun all_moves j => {[ (i, j) ]} ∪ all_moves)
      all_moves (range 0 (width self)))
    ∅ (range 0 (height self)).

(** [__init__] *)
Definition init (height width : Z) : t :=
  mk height width ∅ ∅ ∅ [] false.

Definition mark_mine (cell : Cell) (self : t) : t :=
  if bool_decide (cell ∉ mines self) then
    set_knowledge (map (Sentence.mark_mine cell) (knowledge self))
      (set_changed true (set_mines ({[cell]} ∪ mines self) self))
  else set_changed false self.

Definition mark_safe (cell : Cell) (self : t) : t :=
  if bool_decide (cell ∉ mines self) then
    set_knowledge (map (Sentence.mark_safe cell) (knowledge self))
      (set_changed true (set_safes ({[cell]} ∪ safes self) self))
  else set_changed false self.

(** The bodies of the loops of [mark_safes] and [mark_mines], over the
    members in the order they are visited. *)
Definition mark_safes_in (l : list Cell) (self : t) : t :=
  foldl (fun self a =>
    if bool_decide (a ∉ safes self) then mark_safe a self else self) self l.

Definition mark_mines_in (l : list Cell) (self : t) : t :=
  foldl (fun self m =>
    if bool_decide (m ∉ mines self) then mark_mine m self else self) self l.

Definition mark_safes (new_safes : gset Cell) (self : t) : t :=
  mark_safes_in (elements new_safes) self.

Definition mark_mines (new_mines : gset Cell) (self : t) : t :=
  mark_mines_in (elements new_mines) self.

Definition neighbors (cell : Cell) (self : t) : gset Cell :=
  foldl (fun neighbors i =>
    foldl (fun neighbors j =>
      if bool_decide ((i, j) = cell) then neighbors
      else if bool_decide (0 <= i < height self) && bool_decide (0 <= j < width self)
           then {[ (i, j) ]} ∪ neighbors
           else neighbors)
      neighbors (range (cell.2 - 1) (cell.2 + 2)))
    ∅ (range (cell.1 - 1) (cell.1 + 2)).

(** The first loop of [clean_up]: the pair [(trans_cells, count)] after
    the members of [cells] have been visited in the order [l]. *)
Definition clean_up_filter (l : list Cell) (self : t)
    (acc : gset Cell * Z) : gset Cell * Z :=
  foldl (fun '(trans_cells, count) c =>
    if bool_decide (c ∈ safes self) then (trans_cells ∖ {[c]}, count)
    else if bool_decide (c ∈ mines self) then (trans_cells ∖ {[c]}, count - 1)
    else (trans_cells, count)) acc l.

(** [clean_up] returns a sentence or [None], and may mark cells. *)
Definition clean_up (cells : gset Cell) (count : Z) (self : t)
    : option Sentence.t * t :=
  let '(trans_cells, count) := clean_up_filter (elements cells) self (cells, count) in
  if bool_decide (trans_cells ≠ ∅) then
    if bool_decide (count = 0) then (None, mark_safes trans_cells self)
    else if bool_decide (Z.of_nat (size trans_cells) = count)
         then (None, mark_mines trans_cells self)
         else (Some (Sentence.mk trans_cells count), self)
  else (None, self).

(** [in_knowledge]: the filter keeps the stored sentences [s] for which
    [sentence.__eq__(s)] is true, and [any] of a list of sentence
    objects is true when the list is not empty.  For [None] as the
    argument, [None.__eq__(s)] is [NotImplemented], which counts as
    true, so the filter keeps every stored sentence. *)
Definition in_knowledge (sentence : option Sentence.t) (self : t) : bool :=
  match sentence with
  | Some sentence =>
      bool_decide (filter (fun s => Sentence.eq sentence s = true) (knowledge self) ≠ [])
  | None => bool_decide (knowledge self ≠ [])
  end.

(** [add_if_new].  Its argument is [None] when [add_inferred_sentence]
    passes on the result of a [clean_up] that resolved the derived
    sentence.  [knowledge] holds two sentences at least at that point
    (lemma [unique_pairs_length]), so the branch that would append
    [None] to an empty list is never taken; the embedding leaves the
    list empty there. *)
Definition add_if_new (sentence : option Sentence.t) (self : t) : t :=
  let append self :=
    match sentence with
    | Some s => set_knowledge (knowledge self ++ [s]) (set_changed true self)
    | None => set_changed true self
    end in
  if bool_decide (knowledge self = []) then append self
  else if negb (in_knowledge sentence self) then append self
  else self.

Definition add_new_sentence (cell : Cell) (count : Z) (self : t) : t :=
  let neighbors := neighbors cell self in
  let '(sentence, self) := clean_up neighbors count self in
  match sentence with
  | Some _ => add_if_new sentence self
  | None => self
  end.

(** One round of the loop of [mark_additional_cells], at the sentence
    stored at index [i]. *)
Definition mark_additional_cells_at (self : t) (i : nat) : t :=
  match knowledge self !! i with
  | Some s =>
      let new_mines := Sentence.known_mines s in
      let new_safes := Sentence.known_safes s in
      if truthy new_mines then
        mark_mines (default ∅ new_mines) (set_changed true self)
      else if truthy new_safes then
        mark_safes (default ∅ new_safes) (set_changed true self)
      else self
  | None => self
  end.

Definition mark_additional_cells (self : t) : t :=
  foldl mark_additional_cells_at self (seq 0 (length (knowledge self))).

Definition are_identicals (s1 s2 : Sentence.t) : bool := Sentence.eq s1 s2.

Definition is_not_empty (s : Sentence.t) : bool := negb (Sentence.eq s empty).

(** [unique_pairs]: pairs of references, hence of indices; the two
    tests are made on the sentences as they are when the list is
    built. *)
Definition unique_pairs (self : t) : list (nat * nat) :=
  let indexed := imap (fun i s => (i, s)) (knowledge self) in
  let not_empty := filter (fun p => is_not_empty p.2 = true) indexed in
  map (fun p => (p.1.1, p.2.1))
    (filter (fun p => are_identicals p.1.2 p.2.2 = false)
       (combinations2 not_empty)).

(** One round of the loop of [add_inferred_sentence], at the pair of
    sentences stored at [(i1, i2)], read as they are now. *)
Definition add_inferred_sentence_at (self : t) (p : nat * nat) : t :=
  match knowledge self !! p.1, knowledge self !! p.2 with
  | Some s1, Some s2 =>
      if bool_decide (Sentence.cells s1 ⊂ Sentence.cells s2) then
        let cells := Sentence.cells s2 ∖ Sentence.cells s1 in
        let count := Sentence.count s2 - Sentence.count s1 in
        let '(sent1, self) := clean_up cells count self in
        add_if_new sent1 self
      else if bool_decide (Sentence.cells s2 ⊂ Sentence.cells s1) then
        let cells := Sentence.cells s1 ∖ Sentence.cells s2 in
        let count := Sentence.count s1 - Sentence.count s2 in
        let '(sent2, self) := clean_up cells count self in
        add_if_new sent2 self
      else self
  | _, _ => self
  end.

Definition add_inferred_sentence (self : t) : t :=
  foldl add_inferred_sentence_at self (unique_pairs self).

(** One turn of the [while] loop of [add_knowledge]. *)
Definition pass (self : t) : t :=
  add_inferred_sentence (mark_additional_cells (set_changed false self)).

(** The [while self.KB_has_changed] loop; [None] when [fuel] turns do
    not reach the exit. *)
Fixpoint loop (fuel : nat) (self : t) : option t :=
  if KB_has_changed self then
    match fuel with
    | O => None
    | S fuel => loop fuel (pass self)
    end
  else Some self.

Definition add_knowledge (fuel : nat) (cell : Cell) (count : Z) (self : t)
    : option t :=
  let self := set_moves_made ({[cell]} ∪ moves_made self) self in
  let self := mark_safe cell self in
  let self := add_new_sentence cell count self in
  let self := mark_additional_cells self in
  let self := add_inferred_sentence self in
  loop fuel self.

(** [s.pop()] on a fresh set: some member of it. *)
Definition pop (s : gset Cell) : option Cell := head (elements s).

(** The two queries build a new set and pop from it; [self] is
    returned as it was. *)
Definition make_safe_move (self : t) : option Cell * t :=
  let safe_moves := safes self ∖ moves_made self in
  if bool_decide (0 < Z.of_nat (size safe_moves)) then (pop safe_moves, self)
  else (None, self).

Definition make_random_move (self : t) : option Cell * t :=
  let random_move := all_possible_moves self ∖ moves_made self ∖ mines self in
  if bool_decide (0 < Z.of_nat (size random_move)) then (pop random_move, self)
  else (None, self).

End MinesweeperAI.

Import MinesweeperAI.

(** ** Operations of a caller and their runs *)

Inductive op :=
  | Observe (cell : Cell) (count : Z)
  | MarkMine (cell : Cell)
  | MarkSafe (cell : Cell)
  | SafeMove
  | RandomMove.

(** One public call; [add_knowledge] is the operation the specification
    names [observe]. *)
Definition exec (fuel : nat) (o : op) (self : t) : option t :=
  match o with
  | Observe cell count => add_knowledge fuel cell count self
  | MarkMine cell => Some (mark_mine cell self)
  | MarkSafe cell => Some (mark_safe cell self)
  | SafeMove => Some (make_safe_move self).2
  | RandomMove => Some (make_random_move self).2
  end.

Fixpoint run (fuel : nat) (ops : list op) (self : t) : option t :=
  match ops with
  | [] => Some self
  | o :: ops => self' ← exec fuel o self; run fuel ops self'
  end.

(** A call is consistent with a board when it tells the truth about it:
    an observed cell is not a mine and comes with the count the board
    computes for it, a cell marked by hand has the status it is given. *)
Definition consistent (g : Minesweeper.t) (o : op) : Prop :=
  match o with
  | Observe cell count =>
      Minesweeper.is_mine cell g = false ∧ count = Minesweeper.nearby_mines cell g
  | MarkMine cell => cell ∈ Minesweeper.mines g
  | MarkSafe cell => cell ∉ Minesweeper.mines g
  | SafeMove | RandomMove => True
  end.

(** Outcome of a call of a Python method: it returns or it raises. *)
Inductive outcome (A : Type) :=
  | Returns (a : A)
  | Raises.
Arguments Returns {A} a.
Arguments Raises {A}.

(** [mark_mine] and [mark_safe] contain no [raise], and the set and list
    operations they perform raise nothing: every call returns. *)
Definition call_mark_mine (cell : Cell) (self : t) : outcome t :=
  Returns (mark_mine cell self).

Definition call_mark_safe (cell : Cell) (self : t) : outcome t :=
  Returns (mark_safe cell self).

(** What [Sentence.mark_safe] and [Sentence.mark_mine] make of a sentence
    once every cell of [N] has been marked. *)
Definition without_safes (N : gset Cell) (s : Sentence.t) : Sentence.t :=
  Sentence.mk (Sentence.cells s ∖ N) (Sentence.count s).

Definition without_mines (N : gset Cell) (s : Sentence.t) : Sentence.t :=
  Sentence.mk (Sentence.cells s ∖ N)
              (Sentence.count s - Z.of_nat (size (Sentence.cells s ∩ N))).

(** The state after the cells of [N], none of them marked before, have
    been marked as mines, resp. as safe (with [b] for the flag). *)
Definition marked_mines (N : gset Cell) (self : t) : t :=
  mk (height self) (width self) (moves_made self) (N ∪ mines self) (safes self)
     (map (without_mines N) (knowledge self)) true.

Definition marked_safes (N : gset Cell) (b : bool) (self : t) : t :=
  mk (height self) (width self) (moves_made self) (mines self) (N ∪ safes self)
     (map (without_safes N) (knowledge self)) b.

(** The cells [clean_up] keeps, and the count it is left with: a cell
    that is both a known safe and a known mine takes the first branch of
    the loop and leaves the count alone. *)
Definition cleaned_cells (cells : gset Cell) (self : t) : gset Cell :=
  cells ∖ safes self ∖ mines self.

Definition cleaned_count (cells : gset Cell) (count : Z) (self : t) : Z :=
  count - Z.of_nat (size (cells ∩ (mines self ∖ safes self))).

(** The state after [add_if_new] has appended a sentence. *)
Definition appended (s : Sentence.t) (self : t) : t :=
  mk (height self) (width self) (moves_made self) (mines self) (safes self)
     (knowledge self ++ [s]) true.

(** ** Invariants of every run *)

(** No operation takes a cell out of a registry or a sentence out of the
    list, and the bounds of the grid stay as they are. *)
Definition grows (a b : t) : Prop :=
  moves_made a ⊆ moves_made b ∧ safes a ⊆ safes b ∧ mines a ⊆ mines b ∧
  (length (knowledge a) ≤ length (knowledge b))%nat ∧
  height b = height a ∧ width b = width a.

(** The cells of a stored sentence are neither known safe nor known
    mines. *)
Definition undetermined_in (self : t) (s : Sentence.t) : Prop :=
  Sentence.cells s ## safes self ∧ Sentence.cells s ## mines self.

Definition undetermined (self : t) : Prop :=
  Forall (undetermined_in self) (knowledge self).

(** ** The cells visited by a double loop *)

Definition visited (rows cols : list Z) : list Cell :=
  flat_map (fun i => map (pair i) cols) rows.

(** The cells around [cell], itself included. *)
Definition around (cell : Cell) : list Cell :=
  visited (range (cell.1 - 1) (cell.1 + 2)) (range (cell.2 - 1) (cell.2 + 2)).

Definition in_bounds (h w : Z) (c : Cell) : Prop :=
  0 <= c.1 < h ∧ 0 <= c.2 < w.

(** ** Invariants of the runs that tell the truth about a board *)

(** [M] is the set of the mines of the board, [G] the set of the cells of
    its grid.  A sentence is sound when its count is the number of mines
    among its cells. *)
Definition sound_in (M G : gset Cell) (s : Sentence.t) : Prop :=
  Sentence.count s = Z.of_nat (size (Sentence.cells s ∩ M)) ∧
  Sentence.cells s ⊆ G.

Definition sound (M G : gset Cell) (self : t) : Prop :=
  safes self ## M ∧ mines self ⊆ M ∧ Forall (sound_in M G) (knowledge self).

Definition faithful (M G : gset Cell) (self : t) : Prop :=
  sound M G self ∧ undetermined self.

(** All the subsets of the set of the members of a list. *)
Definition powerset (l : list Cell) : gset (gset Cell) :=
  foldr (fun x P => P ∪ set_map (fun Y : gset Cell => {[x]} ∪ Y) P) {[ ∅ ]} l.

(** The sets of cells of the stored sentences. *)
Definition present (self : t) : gset (gset Cell) :=
  list_to_set (map Sentence.cells (knowledge self)).

(** The variant of the [while] loop: the number of cells of the grid not
    yet marked, then the number of sets of cells that no stored sentence
    is about. *)
Definition open_cells (G : gset Cell) (self : t) : nat :=
  size (G ∖ (safes self ∪ mines self)).

Definition absent (G : gset Cell) (self : t) : nat :=
  size (powerset (elements G) ∖ present self).

Definition variant (G : gset Cell) (self : t) : nat :=
  (open_cells G self * S (size (powerset (elements G))) + absent G self)%nat.

(** What a step of the deduction does to the flag and to the variant: a
    state left with the flag down is the state the step started from,
    and the flag is raised only by a step that lowers the variant. *)
Definition progress (G : gset Cell) (a b : t) : Prop :=
  (KB_has_changed b = false → b = a) ∧
  (variant G b ≤ variant G a)%nat ∧
  (KB_has_changed b = true →
   KB_has_changed a = true ∨ (variant G b < variant G a)%nat).

(** A stored sentence that [mark_additional_cells] would resolve. *)
Definition resolvable (s : Sentence.t) : Prop :=
  truthy (Sentence.known_mines s) = true ∨ truthy (Sentence.known_safes s) = true.

(** No stored sentence is left to resolve. *)
Definition settled (self : t) : Prop :=
  Forall (fun s => ¬ resolvable s) (knowledge self).

(** The knowledge base plays on the board [g] and everything it holds is
    true of that board. *)
Definition faithful_to (g : Minesweeper.t) (self : t) : Prop :=
  height self = Minesweeper.height g ∧ width self = Minesweeper.width g ∧
  faithful (Minesweeper.mines g) (all_possible_moves self) self.

(** ** Boards and states of the examples *)

(** The 3×3 board with a single mine at (0,0), and the state of a
    knowledge base for it after the clues of (1,1), (0,1) and (1,0). *)
Definition corner_board : Minesweeper.t := Minesweeper.mk 3 3 {[ (0, 0) ]}.

Definition corner_clues : list op :=
  map (fun cell => Observe cell (Minesweeper.nearby_mines cell corner_board))
      [(1, 1); (0, 1); (1, 0)].

Definition corner_solved : t :=
  mk 3 3 {[ (1, 1); (0, 1); (1, 0) ]} {[ (0, 0) ]}
     {[ (0, 1); (0, 2); (1, 0); (1, 1); (1, 2); (2, 0); (2, 1); (2, 2) ]}
     [empty; empty] false.

(** Two clues that no board gives together: the three neighbours of (0,0)
    are all mines, and (2,2), a neighbour of (1,1), has none around it. *)
Definition clashing_clues : list op := [Observe (0, 0) 3; Observe (2, 2) 0].

Definition clashing_state : t :=
  mk 3 3 {[ (0, 0); (2, 2) ]} {[ (0, 1); (1, 0); (1, 1) ]} {[ (0, 0); (2, 2) ]}
     [Sentence.mk {[ (1, 2); (2, 1) ]} (-1)] false.

(** A cell marked safe, then marked as a mine. *)
Definition overlapping_state : t :=
  mk 3 3 ∅ {[ (0, 0) ]} {[ (0, 0) ]} [] true.

(** ** The policy of the specification for contradictory marks *)

(** The call is rejected and the contradiction reported to the caller. *)
Definition fails_fast (cell : Cell) (self : t) : Prop :=
  (cell ∈ safes self → call_mark_mine cell self = Raises) ∧
  (cell ∈ mines self → call_mark_safe cell self = Raises).

(** ** Sentences with a set of cells removed *)

(** Set equalities that need a case distinction on one cell. *)
Ltac set_cases a :=
  let x := fresh "x" in
  apply set_eq; intros x; destruct (decide (x = a)); set_solver.

Lemma size_union_cells (X Y : gset Cell) :
  X ## Y → size (X ∪ Y) = (size X + size Y)%nat.
Proof. apply size_union. Qed.

Lemma sentence_eq_intro (s1 s2 : Sentence.t) :
  Sentence.cells s1 = Sentence.cells s2 →
  Sentence.count s1 = Sentence.count s2 → s1 = s2.
Proof. destruct s1, s2; simpl; congruence. Qed.

Lemma sentence_eq_true (s1 s2 : Sentence.t) :
  Sentence.eq s1 s2 = true ↔ s1 = s2.
Proof.
  unfold Sentence.eq. rewrite andb_true_iff, !bool_decide_eq_true.
  split; [intros []; by apply sentence_eq_intro | by intros ->].
Qed.

Lemma mark_safe_without c s : Sentence.mark_safe c s = without_safes {[c]} s.
Proof.
  unfold Sentence.mark_safe, without_safes. case_bool_decide; [done|].
  apply sentence_eq_intro; simpl; [set_solver | done].
Qed.

Lemma mark_mine_without c s : Sentence.mark_mine c s = without_mines {[c]} s.
Proof.
  unfold Sentence.mark_mine, without_mines. case_bool_decide.
  - f_equal. replace (Sentence.cells s ∩ {[c]}) with ({[c]} : gset Cell) by set_solver.
    rewrite size_singleton. lia.
  - apply sentence_eq_intro; simpl; [set_solver|].
    replace (Sentence.cells s ∩ {[c]}) with (∅ : gset Cell) by set_solver.
    rewrite size_empty. lia.
Qed.

Lemma without_safes_empty s : without_safes ∅ s = s.
Proof. apply sentence_eq_intro; simpl; [set_solver | done]. Qed.

Lemma without_mines_empty s : without_mines ∅ s = s.
Proof.
  apply sentence_eq_intro; simpl; [set_solver|].
  replace (Sentence.cells s ∩ ∅) with (∅ : gset Cell) by set_solver.
  rewrite size_empty. lia.
Qed.

Lemma without_safes_twice N1 N2 s :
  without_safes N2 (without_safes N1 s) = without_safes (N1 ∪ N2) s.
Proof. apply sentence_eq_intro; simpl; [set_solver | done]. Qed.

Lemma without_mines_twice N1 N2 s :
  N1 ## N2 →
  without_mines N2 (without_mines N1 s) = without_mines (N1 ∪ N2) s.
Proof.
  intros Hd. apply sentence_eq_intro; simpl; [set_solver|].
  replace (Sentence.cells s ∩ (N1 ∪ N2))
    with ((Sentence.cells s ∩ N1) ∪ (Sentence.cells s ∖ N1 ∩ N2)) by set_solver.
  rewrite size_union_cells; [lia | set_solver].
Qed.

(** ** Marking: closed forms *)

Lemma ai_eq_intro (a b : t) :
  height a = height b → width a = width b → moves_made a = moves_made b →
  mines a = mines b → safes a = safes b → knowledge a = knowledge b →
  KB_has_changed a = KB_has_changed b → a = b.
Proof. destruct a, b; simpl; congruence. Qed.

Lemma map_without_safes_empty k : map (without_safes ∅) k = k.
Proof. induction k as [|s k IH]; simpl; [done|]. by rewrite without_safes_empty, IH. Qed.

Lemma map_without_mines_empty k : map (without_mines ∅) k = k.
Proof. induction k as [|s k IH]; simpl; [done|]. by rewrite without_mines_empty, IH. Qed.

Lemma marked_safes_empty self : marked_safes ∅ (KB_has_changed self) self = self.
Proof.
  apply ai_eq_intro; simpl; try done; [set_solver | apply map_without_safes_empty].
Qed.

Lemma mark_mine_new c self :
  c ∉ mines self → mark_mine c self = marked_mines {[c]} self.
Proof.
  intros Hc. unfold mark_mine. rewrite bool_decide_eq_true_2 by done.
  apply ai_eq_intro; simpl; try done.
  apply map_ext. intros s. apply mark_mine_without.
Qed.

Lemma mark_mine_old c self :
  c ∈ mines self → mark_mine c self = set_changed false self.
Proof.
  intros Hc. unfold mark_mine. rewrite bool_decide_eq_false_2; [done | tauto].
Qed.

Lemma mark_safe_new c self :
  c ∉ mines self → mark_safe c self = marked_safes {[c]} true self.
Proof.
  intros Hc. unfold mark_safe. rewrite bool_decide_eq_true_2 by done.
  apply ai_eq_intro; simpl; try done.
  apply map_ext. intros s. apply mark_safe_without.
Qed.

Lemma mark_safe_old c self :
  c ∈ mines self → mark_safe c self = set_changed false self.
Proof.
  intros Hc. unfold mark_safe. rewrite bool_decide_eq_false_2; [done | tauto].
Qed.

Lemma marked_mines_twice N1 N2 self :
  N1 ## N2 →
  marked_mines N2 (marked_mines N1 self) = marked_mines (N1 ∪ N2) self.
Proof.
  intros Hd. apply ai_eq_intro; simpl; try done; [set_solver|].
  rewrite map_map. apply map_ext. intros s. by apply without_mines_twice.
Qed.

Lemma marked_safes_twice N1 N2 b1 b2 self :
  marked_safes N2 b2 (marked_safes N1 b1 self) = marked_safes (N1 ∪ N2) b2 self.
Proof.
  apply ai_eq_intro; simpl; try done; [set_solver|].
  rewrite map_map. apply map_ext. intros s. apply without_safes_twice.
Qed.

(** [mark_mines] marks the cells that are not mines yet, whatever the
    order of the visit. *)
Lemma mark_mines_in_spec l self :
  mark_mines_in l self =
    let N := list_to_set l ∖ mines self in
    if decide (N = ∅) then self else marked_mines N self.
Proof.
  revert self. induction l as [|a l IH]; intros self; simpl.
  - rewrite decide_True by set_solver. done.
  - unfold mark_mines_in in *. simpl. case_bool_decide as Ha.
    + rewrite IH, (mark_mine_new _ _ Ha). clear IH. simpl.
      set (N1 := list_to_set l ∖ ({[a]} ∪ mines self)).
      assert (({[a]} ∪ list_to_set l) ∖ mines self = {[a]} ∪ N1) as ->
        by (subst N1; set_cases a).
      assert ({[a]} ## N1) as Hd by (subst N1; set_solver).
      clearbody N1.
      rewrite (decide_False (P := _ ∪ _ = ∅)) by set_solver.
      destruct (decide (N1 = ∅)) as [->|_].
      * by replace ({[a]} ∪ ∅ : gset Cell) with ({[a]} : gset Cell) by set_solver.
      * by apply marked_mines_twice.
    + rewrite IH. clear IH. simpl.
      assert (({[a]} ∪ list_to_set l) ∖ mines self = list_to_set l ∖ mines self) as ->; [|done].
      set_solver.
Qed.

(** [mark_safes] marks the cells that are neither safe nor mines yet.  The
    flag it leaves depends on the order of the visit only when one of
    the cells it is asked to mark is a known mine. *)
Lemma mark_safes_in_spec l self :
  let N := list_to_set l ∖ safes self ∖ mines self in
  ∃ b, mark_safes_in l self = marked_safes N b self ∧
       (list_to_set l ∖ safes self ## mines self →
        b = if decide (N = ∅) then KB_has_changed self else true).
Proof.
  revert self. induction l as [|a l IH]; intros self; simpl.
  - exists (KB_has_changed self). split.
    + replace (∅ ∖ safes self ∖ mines self) with (∅ : gset Cell) by set_solver.
      by rewrite marked_safes_empty.
    + intros _. rewrite decide_True by set_solver. done.
  - unfold mark_safes_in in *. simpl. case_bool_decide as Ha.
    + destruct (decide (a ∈ mines self)) as [Hm|Hm].
      * rewrite (mark_safe_old _ _ Hm).
        destruct (IH (set_changed false self)) as (b & -> & _). clear IH. simpl.
        exists b. split; [|set_solver].
        assert (({[a]} ∪ list_to_set l) ∖ safes self ∖ mines self
                = list_to_set l ∖ safes self ∖ mines self) as -> by set_solver.
        done.
      * rewrite (mark_safe_new _ _ Hm).
        destruct (IH (marked_safes {[a]} true self)) as (b & -> & Hb). clear IH.
        simpl in *.
        set (N1 := list_to_set l ∖ ({[a]} ∪ safes self) ∖ mines self) in *.
        assert (({[a]} ∪ list_to_set l) ∖ safes self ∖ mines self = {[a]} ∪ N1)
          as -> by (subst N1; set_cases a).
        clearbody N1.
        exists b. split; [apply marked_safes_twice|].
        intros Hd. rewrite decide_False by set_solver.
        rewrite Hb by set_solver. by destruct (decide _).
    + destruct (IH self) as (b & -> & Hb). clear IH. exists b.
      assert (({[a]} ∪ list_to_set l) ∖ safes self ∖ mines self
              = list_to_set l ∖ safes self ∖ mines self) as -> by set_solver.
      split; [done|]. intros Hd. apply Hb. set_solver.
Qed.

(** ** Clean-up: closed form *)

Lemma clean_up_filter_spec l self T n :
  clean_up_filter l self (T, n) =
    (T ∖ (list_to_set l ∩ (safes self ∪ mines self)),
     n - Z.of_nat (length (filter (fun c => c ∈ mines self ∖ safes self) l))).
Proof.
  revert T n. induction l as [|c l IH]; intros T n; simpl.
  - f_equal; [set_solver | lia].
  - unfold clean_up_filter in *. simpl.
    rewrite filter_cons. case_bool_decide as Hs; [|case_bool_decide as Hm].
    + rewrite IH, decide_False by set_solver. f_equal. set_solver.
    + rewrite IH, decide_True by set_solver. simpl. f_equal; [set_solver | lia].
    + rewrite IH, decide_False by set_solver. f_equal. set_solver.
Qed.

Lemma length_filter_elements (X Y : gset Cell) :
  length (filter (fun c => c ∈ Y) (elements X)) = size (X ∩ Y).
Proof.
  unfold size, set_size. simpl. apply Permutation_length.
  apply NoDup_Permutation.
  - apply NoDup_filter, NoDup_elements.
  - apply NoDup_elements.
  - intros x. rewrite list_elem_of_filter, !elem_of_elements. set_solver.
Qed.

Lemma clean_up_spec X n self :
  clean_up X n self =
    let T := cleaned_cells X self in
    let n' := cleaned_count X n self in
    if decide (T = ∅) then (None, self)
    else if decide (n' = 0) then (None, marked_safes T true self)
    else if decide (Z.of_nat (size T) = n') then (None, marked_mines T self)
    else (Some (Sentence.mk T n'), self).
Proof.
  unfold clean_up. rewrite clean_up_filter_spec, length_filter_elements.
  rewrite list_to_set_elements_L.
  assert (X ∖ (X ∩ (safes self ∪ mines self)) = cleaned_cells X self) as ->
    by (unfold cleaned_cells; set_solver).
  fold (cleaned_count X n self). simpl.
  set (T := cleaned_cells X self). set (n' := cleaned_count X n self).
  destruct (decide (T = ∅)) as [HT|HT].
  { by rewrite bool_decide_eq_false_2 by tauto. }
  rewrite bool_decide_eq_true_2 by done.
  destruct (decide (n' = 0)) as [Hn|Hn].
  { rewrite bool_decide_eq_true_2 by done. f_equal.
    unfold mark_safes. destruct (mark_safes_in_spec (elements T) self) as (b & -> & Hb).
    rewrite list_to_set_elements_L in *.
    assert (T ∖ safes self ∖ mines self = T) as HTT
      by (subst T; unfold cleaned_cells; set_solver).
    rewrite HTT in *. rewrite Hb; [by rewrite decide_False|].
    subst T; unfold cleaned_cells; set_solver. }
  rewrite bool_decide_eq_false_2 by done.
  destruct (decide (Z.of_nat (size T) = n')) as [Hs|Hs].
  { rewrite bool_decide_eq_true_2 by done. f_equal.
    unfold mark_mines. rewrite mark_mines_in_spec. simpl.
    rewrite list_to_set_elements_L.
    assert (T ∖ mines self = T) as -> by (subst T; unfold cleaned_cells; set_solver).
    by rewrite decide_False. }
  by rewrite bool_decide_eq_false_2.
Qed.

(** ** Insertion *)

Lemma in_knowledge_Some s self :
  in_knowledge (Some s) self = bool_decide (s ∈ knowledge self).
Proof.
  unfold in_knowledge. apply bool_decide_ext.
  induction (knowledge self) as [|s' k IH]; simpl.
  - split; [done | by intros ?%elem_of_nil].
  - rewrite filter_cons, elem_of_cons.
    destruct (decide (Sentence.eq s s' = true)) as [He|He].
    + apply sentence_eq_true in He. split; [by left | done].
    + rewrite IH. split; [by right|]. intros [->|?]; [|done].
      destruct He. by apply sentence_eq_true.
Qed.

Lemma add_if_new_Some s self :
  add_if_new (Some s) self =
    if decide (s ∈ knowledge self) then self else appended s self.
Proof.
  unfold add_if_new. rewrite in_knowledge_Some.
  case_bool_decide as Hk.
  - rewrite Hk, decide_False by apply not_elem_of_nil.
    unfold appended. by rewrite Hk.
  - destruct (decide (s ∈ knowledge self)).
    + by rewrite bool_decide_eq_true_2.
    + by rewrite bool_decide_eq_false_2.
Qed.

Lemma add_if_new_None self :
  knowledge self ≠ [] → add_if_new None self = self.
Proof.
  intros Hk. unfold add_if_new, in_knowledge.
  rewrite bool_decide_eq_false_2 by done.
  by rewrite bool_decide_eq_true_2.
Qed.

(** ** Every run: the registries grow, stored cells stay undetermined *)

Global Instance grows_preorder : PreOrder grows.
Proof.
  split.
  - intros a. unfold grows. set_solver.
  - intros a b c (?&?&?&?&?&?) (?&?&?&?&?&?). unfold grows.
    repeat split; try set_solver; try lia; congruence.
Qed.

(** A loop keeps an invariant and stays within a preorder when each of
    its rounds does. *)
Lemma foldl_invariant {A} (I : t → Prop) (R : relation t) `{!PreOrder R}
    (f : t → A → t) (l : list A) :
  (∀ self x, x ∈ l → I self → I (f self x) ∧ R self (f self x)) →
  ∀ self, I self → I (foldl f self l) ∧ R self (foldl f self l).
Proof.
  induction l as [|x l IH]; intros Hf self HI; simpl.
  - split; [done | reflexivity].
  - destruct (Hf self x) as [HI1 HR1]; [by left | done |].
    destruct (IH (fun s y Hy => Hf s y (list_elem_of_further _ _ _ Hy)) _ HI1)
      as [HI2 HR2].
    split; [done | by etrans].
Qed.

Lemma undetermined_marked_safes N b self :
  undetermined self → undetermined (marked_safes N b self).
Proof.
  unfold undetermined, undetermined_in. simpl. rewrite Forall_map.
  intros HI. eapply Forall_impl; [exact HI|]. intros s [? ?]. simpl. set_solver.
Qed.

Lemma undetermined_marked_mines N self :
  undetermined self → undetermined (marked_mines N self).
Proof.
  unfold undetermined, undetermined_in. simpl. rewrite Forall_map.
  intros HI. eapply Forall_impl; [exact HI|]. intros s [? ?]. simpl. set_solver.
Qed.

Lemma undetermined_appended s self :
  undetermined_in self s → undetermined self → undetermined (appended s self).
Proof.
  unfold undetermined. simpl. intros Hs Hk. apply Forall_app. split; [done|].
  by apply Forall_singleton.
Qed.

Lemma grows_marked_safes N b self : grows self (marked_safes N b self).
Proof. unfold grows. simpl. rewrite length_map. set_solver. Qed.

Lemma grows_marked_mines N self : grows self (marked_mines N self).
Proof. unfold grows. simpl. rewrite length_map. set_solver. Qed.

Lemma grows_appended s self : grows self (appended s self).
Proof. unfold grows. simpl. rewrite length_app. simpl. repeat split; try done; lia. Qed.

Lemma grows_set_changed b self : grows self (set_changed b self).
Proof. unfold grows. simpl. set_solver. Qed.

Lemma mark_safe_cases c self :
  mark_safe c self = marked_safes {[c]} true self ∨
  mark_safe c self = set_changed false self.
Proof.
  destruct (decide (c ∈ mines self)).
  - right. by apply mark_safe_old.
  - left. by apply mark_safe_new.
Qed.

Lemma mark_mine_cases c self :
  mark_mine c self = marked_mines {[c]} self ∨
  mark_mine c self = set_changed false self.
Proof.
  destruct (decide (c ∈ mines self)).
  - right. by apply mark_mine_old.
  - left. by apply mark_mine_new.
Qed.

Lemma mark_safe_keeps c self :
  undetermined self → undetermined (mark_safe c self) ∧ grows self (mark_safe c self).
Proof.
  intros HI. destruct (mark_safe_cases c self) as [-> | ->].
  - split; [by apply undetermined_marked_safes | apply grows_marked_safes].
  - split; [done | apply grows_set_changed].
Qed.

Lemma mark_mine_keeps c self :
  undetermined self → undetermined (mark_mine c self) ∧ grows self (mark_mine c self).
Proof.
  intros HI. destruct (mark_mine_cases c self) as [-> | ->].
  - split; [by apply undetermined_marked_mines | apply grows_marked_mines].
  - split; [done | apply grows_set_changed].
Qed.

Lemma mark_safes_keeps X self :
  undetermined self → undetermined (mark_safes X self) ∧ grows self (mark_safes X self).
Proof.
  intros HI. unfold mark_safes.
  destruct (mark_safes_in_spec (elements X) self) as (b & -> & _).
  split; [by apply undetermined_marked_safes | apply grows_marked_safes].
Qed.

Lemma mark_mines_keeps X self :
  undetermined self → undetermined (mark_mines X self) ∧ grows self (mark_mines X self).
Proof.
  intros HI. unfold mark_mines. rewrite mark_mines_in_spec. simpl.
  destruct (decide _); [split; [done | reflexivity]|].
  split; [by apply undetermined_marked_mines | apply grows_marked_mines].
Qed.

Lemma clean_up_keeps X n self :
  undetermined self →
  undetermined (clean_up X n self).2 ∧ grows self (clean_up X n self).2 ∧
  ∀ s, (clean_up X n self).1 = Some s → undetermined_in (clean_up X n self).2 s.
Proof.
  intros HI. rewrite clean_up_spec. simpl.
  repeat destruct (decide _); simpl.
  - split; [|split]; [done | reflexivity | done].
  - split; [|split]; [by apply undetermined_marked_safes | apply grows_marked_safes | done].
  - split; [|split]; [by apply undetermined_marked_mines | apply grows_marked_mines | done].
  - split; [|split]; [done | reflexivity |].
    intros s [= <-]. unfold undetermined_in, cleaned_cells. simpl. set_solver.
Qed.

Lemma add_if_new_keeps o self :
  (∀ s, o = Some s → undetermined_in self s) →
  undetermined self →
  undetermined (add_if_new o self) ∧ grows self (add_if_new o self).
Proof.
  intros Ho HI. destruct o as [s|].
  - rewrite add_if_new_Some. destruct (decide _); [split; [done | reflexivity]|].
    split; [apply undetermined_appended; auto | apply grows_appended].
  - unfold add_if_new. simpl.
    repeat case_bool_decide; simpl;
      (split; [done | reflexivity || apply grows_set_changed]).
Qed.

Lemma add_new_sentence_keeps c n self :
  undetermined self →
  undetermined (add_new_sentence c n self) ∧ grows self (add_new_sentence c n self).
Proof.
  intros HI. unfold add_new_sentence.
  destruct (clean_up_keeps (neighbors c self) n self HI) as (HI1 & HR1 & Hs).
  destruct (clean_up _ _ _) as [[s|] self1]; simpl in *; [|done].
  destruct (add_if_new_keeps (Some s) self1) as [HI2 HR2]; [auto | done |].
  split; [done | by etrans].
Qed.

Lemma mark_additional_cells_at_keeps self i :
  undetermined self →
  undetermined (mark_additional_cells_at self i) ∧
  grows self (mark_additional_cells_at self i).
Proof.
  intros HI. unfold mark_additional_cells_at.
  destruct (knowledge self !! i) as [s|]; [|split; [done | reflexivity]].
  destruct (truthy _).
  { destruct (mark_mines_keeps (default ∅ (Sentence.known_mines s))
               (set_changed true self)) as [? ?]; [done|].
    split; [done|]. etrans; [apply (grows_set_changed true) | done]. }
  destruct (truthy _); [|split; [done | reflexivity]].
  destruct (mark_safes_keeps (default ∅ (Sentence.known_safes s))
             (set_changed true self)) as [? ?]; [done|].
  split; [done|]. etrans; [apply (grows_set_changed true) | done].
Qed.

Lemma mark_additional_cells_keeps self :
  undetermined self →
  undetermined (mark_additional_cells self) ∧ grows self (mark_additional_cells self).
Proof.
  apply foldl_invariant; [apply _|]. intros s i _. apply mark_additional_cells_at_keeps.
Qed.

Lemma add_inferred_sentence_at_keeps self p :
  undetermined self →
  undetermined (add_inferred_sentence_at self p) ∧
  grows self (add_inferred_sentence_at self p).
Proof.
  intros HI. unfold add_inferred_sentence_at.
  destruct (knowledge self !! p.1) as [s1|]; [|split; [done | reflexivity]].
  destruct (knowledge self !! p.2) as [s2|]; [|split; [done | reflexivity]].
  assert (∀ X n, undetermined (let '(o, self') := clean_up X n self in add_if_new o self') ∧
            grows self (let '(o, self') := clean_up X n self in add_if_new o self')) as Hstep.
  { intros X n. destruct (clean_up_keeps X n self HI) as (HI1 & HR1 & Hs).
    destruct (clean_up X n self) as [o self1]; simpl in *.
    destruct (add_if_new_keeps o self1) as [HI2 HR2]; [done | done |].
    split; [done | by etrans]. }
  repeat case_bool_decide; try apply Hstep. split; [done | reflexivity].
Qed.

Lemma add_inferred_sentence_keeps self :
  undetermined self →
  undetermined (add_inferred_sentence self) ∧ grows self (add_inferred_sentence self).
Proof.
  apply foldl_invariant; [apply _|]. intros s i _. apply add_inferred_sentence_at_keeps.
Qed.

Lemma pass_keeps self :
  undetermined self → undetermined (pass self) ∧ grows self (pass self).
Proof.
  intros HI. unfold pass.
  destruct (mark_additional_cells_keeps (set_changed false self) HI) as [HI1 HR1].
  destruct (add_inferred_sentence_keeps _ HI1) as [HI2 HR2].
  split; [done|]. etrans; [apply (grows_set_changed false)|]. by etrans.
Qed.

Lemma loop_keeps fuel self self' :
  loop fuel self = Some self' →
  undetermined self → undetermined self' ∧ grows self self'.
Proof.
  revert self. induction fuel as [|fuel IH]; intros self; simpl.
  - destruct (KB_has_changed self); [done|]. intros [= <-] HI. split; [done | reflexivity].
  - destruct (KB_has_changed self).
    + intros Hl HI. destruct (pass_keeps self HI) as [HI1 HR1].
      destruct (IH _ Hl HI1) as [HI2 HR2]. split; [done | by etrans].
    + intros [= <-] HI. split; [done | reflexivity].
Qed.

Lemma add_knowledge_keeps fuel c n self self' :
  add_knowledge fuel c n self = Some self' →
  undetermined self → undetermined self' ∧ grows self self'.
Proof.
  unfold add_knowledge. intros Hl HI.
  set (self0 := set_moves_made _ self) in *.
  assert (undetermined self0 ∧ grows self self0) as [HI0 HR0].
  { split; [done|]. unfold grows. simpl. set_solver. }
  destruct (mark_safe_keeps c self0 HI0) as [HI1 HR1].
  destruct (add_new_sentence_keeps c n _ HI1) as [HI2 HR2].
  destruct (mark_additional_cells_keeps _ HI2) as [HI3 HR3].
  destruct (add_inferred_sentence_keeps _ HI3) as [HI4 HR4].
  destruct (loop_keeps _ _ _ Hl HI4) as [HI5 HR5].
  split; [done|]. repeat (etrans; [eassumption|]). reflexivity.
Qed.

Lemma exec_keeps fuel o self self' :
  exec fuel o self = Some self' →
  undetermined self → undetermined self' ∧ grows self self'.
Proof.
  destruct o as [c n|c|c| |]; simpl.
  - apply add_knowledge_keeps.
  - intros [= <-]. apply mark_mine_keeps.
  - intros [= <-]. apply mark_safe_keeps.
  - intros [= <-] HI. unfold make_safe_move. case_bool_decide; (split; [done | reflexivity]).
  - intros [= <-] HI. unfold make_random_move. case_bool_decide; (split; [done | reflexivity]).
Qed.

Lemma run_keeps fuel ops self self' :
  run fuel ops self = Some self' →
  undetermined self → undetermined self' ∧ grows self self'.
Proof.
  revert self. induction ops as [|o ops IH]; intros self; simpl.
  - intros [= <-] HI. split; [done | reflexivity].
  - destruct (exec fuel o self) as [self1|] eqn:He; simpl; [|done].
    intros Hr HI. destruct (exec_keeps _ _ _ _ He HI) as [HI1 HR1].
    destruct (IH _ Hr HI1) as [HI2 HR2]. split; [done | by etrans].
Qed.

Lemma undetermined_init h w : undetermined (init h w).
Proof. unfold undetermined. simpl. constructor. Qed.

(** ** The double loops over the grid *)

Lemma foldl_same {A B} (f f' : B → A → B) (l : list A) (a : B) :
  (∀ b x, f b x = f' b x) → foldl f a l = foldl f' a l.
Proof.
  intros Hf. revert a. induction l as [|x l IH]; intros a; simpl; [done|].
  by rewrite Hf, IH.
Qed.

Lemma foldl_visited {B} (f : B → Cell → B) rows cols (a : B) :
  foldl (fun acc i => foldl (fun acc j => f acc (i, j)) acc cols) a rows =
  foldl f a (visited rows cols).
Proof.
  revert a. induction rows as [|i rows IH]; intros a; simpl; [done|].
  unfold visited in *. simpl. rewrite foldl_app, IH. f_equal.
  clear. revert a. induction cols as [|j cols IH]; intros a; simpl; [done|].
  apply IH.
Qed.

Lemma elem_of_visited rows cols (c : Cell) :
  c ∈ visited rows cols ↔ c.1 ∈ rows ∧ c.2 ∈ cols.
Proof.
  unfold visited. rewrite list_elem_of_In, in_flat_map. destruct c as [i j]. simpl. split.
  - intros (i' & Hi & Hj). apply list_elem_of_In, list_elem_of_fmap in Hj as (j' & [= -> ->] & Hj).
    by apply list_elem_of_In in Hi.
  - intros [Hi Hj]. exists i. split; [by apply list_elem_of_In|].
    apply list_elem_of_In, list_elem_of_fmap. by exists j.
Qed.

Lemma NoDup_visited rows cols :
  NoDup rows → NoDup cols → NoDup (visited rows cols).
Proof.
  intros Hr Hc. induction Hr as [|i rows Hi Hr IH]; simpl; [constructor|].
  unfold visited in *. simpl. apply NoDup_app. split; [|split; [|done]].
  - apply NoDup_fmap_2; [|done]. by intros ?? [=].
  - intros c (j & -> & _)%list_elem_of_fmap Hin.
    apply (elem_of_visited rows cols) in Hin as [? _]. done.
Qed.

Lemma elem_of_range a b k : k ∈ range a b ↔ a <= k < b.
Proof. unfold range. rewrite elem_of_seqZ. lia. Qed.

Lemma NoDup_range a b : NoDup (range a b).
Proof. apply NoDup_seqZ. Qed.

Lemma elem_of_around cell (c : Cell) :
  c ∈ around cell ↔
  cell.1 - 1 <= c.1 <= cell.1 + 1 ∧ cell.2 - 1 <= c.2 <= cell.2 + 1.
Proof. unfold around. rewrite elem_of_visited, !elem_of_range. lia. Qed.

Lemma foldl_collect (P : Cell → bool) (l : list Cell) (a : gset Cell) :
  foldl (fun acc c => if P c then {[c]} ∪ acc else acc) a l =
  list_to_set (filter (fun c => P c = true) l) ∪ a.
Proof.
  revert a. induction l as [|c l IH]; intros a; simpl; [set_solver|].
  rewrite IH, filter_cons. destruct (P c); simpl; set_solver.
Qed.

Lemma foldl_tally (P : Cell → bool) (l : list Cell) (n : Z) :
  foldl (fun acc c => if P c then acc + 1 else acc) n l =
  n + Z.of_nat (length (filter (fun c => P c = true) l)).
Proof.
  revert n. induction l as [|c l IH]; intros n; simpl; [lia|].
  rewrite IH, filter_cons. destruct (P c); simpl; lia.
Qed.

Lemma elem_of_all_possible_moves self (c : Cell) :
  c ∈ all_possible_moves self ↔ in_bounds (height self) (width self) c.
Proof.
  unfold all_possible_moves, in_bounds.
  rewrite (foldl_visited (fun acc c => {[c]} ∪ acc)).
  rewrite (foldl_collect (fun _ => true) _ ∅).
  rewrite elem_of_union, elem_of_list_to_set, list_elem_of_filter, elem_of_visited.
  rewrite !elem_of_range. set_solver by lia.
Qed.

Lemma neighbors_spec cell self :
  neighbors cell self =
  list_to_set (filter (fun c => c ≠ cell ∧ in_bounds (height self) (width self) c)
                 (around cell)).
Proof.
  unfold neighbors.
  etrans; [exact (foldl_visited (fun acc c =>
    if bool_decide (c = cell) then acc
    else if bool_decide (0 <= c.1 < height self) && bool_decide (0 <= c.2 < width self)
         then {[c]} ∪ acc else acc) _ _ _)|].
  fold (around cell).
  rewrite (foldl_same _ (fun acc c =>
    if negb (bool_decide (c = cell)) &&
       (bool_decide (0 <= c.1 < height self) && bool_decide (0 <= c.2 < width self))
    then {[c]} ∪ acc else acc)).
  2:{ intros acc c. by destruct (bool_decide (c = cell)). }
  rewrite foldl_collect, (right_id_L ∅ (∪)). f_equal. apply list_filter_iff. intros c.
  unfold in_bounds.
  rewrite !andb_true_iff, negb_true_iff, bool_decide_eq_false, !bool_decide_eq_true.
  done.
Qed.

Lemma elem_of_neighbors cell self (c : Cell) :
  c ∈ neighbors cell self ↔
  c ≠ cell ∧ in_bounds (height self) (width self) c ∧ c ∈ around cell.
Proof.
  rewrite neighbors_spec, elem_of_list_to_set, list_elem_of_filter. tauto.
Qed.

Lemma neighbors_in_grid cell self : neighbors cell self ⊆ all_possible_moves self.
Proof.
  intros c (_ & ? & _)%elem_of_neighbors. by apply elem_of_all_possible_moves.
Qed.

(** The count the board reports for a cell is the number of mines among
    the neighbours the knowledge base computes for it. *)
Lemma nearby_mines_spec cell g self :
  height self = Minesweeper.height g → width self = Minesweeper.width g →
  Minesweeper.nearby_mines cell g =
  Z.of_nat (size (neighbors cell self ∩ Minesweeper.mines g)).
Proof.
  intros Hh Hw. unfold Minesweeper.nearby_mines.
  etrans; [exact (foldl_visited (fun acc c =>
    if bool_decide (c = cell) then acc
    else if bool_decide (0 <= c.1 < Minesweeper.height g) &&
            bool_decide (0 <= c.2 < Minesweeper.width g)
         then (if Minesweeper.is_mine c g then acc + 1 else acc) else acc) _ _ _)|].
  fold (around cell).
  rewrite (foldl_same _ (fun acc c =>
    if negb (bool_decide (c = cell)) &&
       (bool_decide (0 <= c.1 < Minesweeper.height g) &&
        bool_decide (0 <= c.2 < Minesweeper.width g)) && Minesweeper.is_mine c g
    then acc + 1 else acc)).
  2:{ intros acc c. destruct (bool_decide (c = cell)); [done|]. simpl.
      by destruct (_ && _). }
  rewrite foldl_tally, Z.add_0_l. f_equal.
  rewrite neighbors_spec, Hh, Hw.
  etrans; [symmetry; apply (size_list_to_set (C := gset Cell))|].
  { apply NoDup_filter, NoDup_visited; apply NoDup_range. }
  f_equal. apply set_eq. intros c.
  rewrite elem_of_intersection, !elem_of_list_to_set, !list_elem_of_filter.
  unfold in_bounds, Minesweeper.is_mine.
  rewrite !andb_true_iff, negb_true_iff, bool_decide_eq_false, !bool_decide_eq_true.
  tauto.
Qed.

(** ** Resolution of the stored sentences: closed form *)

Lemma truthy_known_mines s :
  truthy (Sentence.known_mines s) = true ↔
  Sentence.cells s ≠ ∅ ∧ Z.of_nat (size (Sentence.cells s)) = Sentence.count s.
Proof.
  unfold Sentence.known_mines, Sentence.len. case_bool_decide; simpl.
  - rewrite bool_decide_eq_true. tauto.
  - split; [done | tauto].
Qed.

Lemma truthy_known_safes s :
  truthy (Sentence.known_safes s) = true ↔
  Sentence.cells s ≠ ∅ ∧ Sentence.count s = 0.
Proof.
  unfold Sentence.known_safes. case_bool_decide; simpl.
  - rewrite bool_decide_eq_true. tauto.
  - split; [done | tauto].
Qed.

Lemma mark_mines_fresh X self :
  X ≠ ∅ → X ## mines self → mark_mines X self = marked_mines X self.
Proof.
  intros HX Hd. unfold mark_mines. rewrite mark_mines_in_spec. simpl.
  rewrite list_to_set_elements_L.
  assert (X ∖ mines self = X) as -> by set_solver. by rewrite decide_False.
Qed.

Lemma mark_safes_fresh X self :
  X ≠ ∅ → X ## safes self → X ## mines self →
  mark_safes X self = marked_safes X true self.
Proof.
  intros HX Hs Hm. unfold mark_safes.
  destruct (mark_safes_in_spec (elements X) self) as (b & -> & Hb).
  rewrite list_to_set_elements_L in *.
  assert (X ∖ safes self ∖ mines self = X) as HXX by set_solver.
  rewrite HXX in *. rewrite Hb by set_solver. by rewrite decide_False.
Qed.

Lemma mark_additional_cells_at_spec self i :
  mark_additional_cells_at self i =
    match knowledge self !! i with
    | Some s =>
        if decide (Sentence.cells s ≠ ∅ ∧
                   Z.of_nat (size (Sentence.cells s)) = Sentence.count s)
        then mark_mines (Sentence.cells s) (set_changed true self)
        else if decide (Sentence.cells s ≠ ∅ ∧ Sentence.count s = 0)
        then mark_safes (Sentence.cells s) (set_changed true self)
        else self
    | None => self
    end.
Proof.
  unfold mark_additional_cells_at. destruct (knowledge self !! i) as [s|]; [|done].
  destruct (decide _) as [Hm|Hm].
  { rewrite (proj2 (truthy_known_mines s) Hm).
    unfold Sentence.known_mines, Sentence.len.
    by rewrite bool_decide_eq_true_2 by tauto. }
  destruct (truthy (Sentence.known_mines s)) eqn:Htm.
  { by apply truthy_known_mines in Htm. }
  destruct (decide _) as [Hs|Hs].
  { rewrite (proj2 (truthy_known_safes s) Hs).
    unfold Sentence.known_safes. by rewrite bool_decide_eq_true_2 by tauto. }
  destruct (truthy (Sentence.known_safes s)) eqn:Hts; [|done].
  by apply truthy_known_safes in Hts.
Qed.

(** ** Truthful runs: soundness and the variant of the loop *)

Ltac set_split N :=
  let x := fresh "x" in
  apply set_eq; intros x; destruct (decide (x ∈ N)); set_solver.

Lemma size_inter_le (X M : gset Cell) : (size (X ∩ M) ≤ size X)%nat.
Proof. apply subseteq_size. set_solver. Qed.

Lemma size_inter_full (X M : gset Cell) : size (X ∩ M) = size X → X ⊆ M.
Proof.
  intros Hs. assert (X ∩ M = X) as He; [|set_solver].
  apply set_subseteq_size_eq; [set_solver | lia].
Qed.

Lemma size_inter_none (X M : gset Cell) : size (X ∩ M) = 0%nat → X ## M.
Proof. intros Hs%size_empty_inv. set_solver. Qed.

Lemma size_inter_split (X N M : gset Cell) :
  N ⊆ M → size (X ∩ M) = (size (X ∩ N) + size ((X ∖ N) ∩ M))%nat.
Proof.
  intros HN. rewrite <- size_union_cells by set_solver. f_equal. set_split N.
Qed.

Section truthful.
Variables M G : gset Cell.

Global Instance progress_preorder : PreOrder (progress G).
Proof.
  split.
  - intros a. unfold progress. auto.
  - intros a b c (Hab1 & Hab2 & Hab3) (Hbc1 & Hbc2 & Hbc3). unfold progress.
    split; [|split].
    + intros Hc. pose proof (Hbc1 Hc) as ->. by apply Hab1.
    + lia.
    + intros Hc. destruct (Hbc3 Hc) as [Hb|Hlt]; [|right; lia].
      destruct (Hab3 Hb) as [?|?]; [by left | right; lia].
Qed.

Lemma absent_le self : (absent G self ≤ size (powerset (elements G)))%nat.
Proof. unfold absent. apply subseteq_size. set_solver. Qed.

Lemma variant_open a b :
  (open_cells G b < open_cells G a)%nat → (variant G b < variant G a)%nat.
Proof. intros Ho. unfold variant. pose proof (absent_le b). nia. Qed.

Lemma open_cells_marked (N : gset Cell) (S0 S1 : gset Cell) :
  N ≠ ∅ → N ⊆ G → N ## S0 → S1 = N ∪ S0 →
  (size (G ∖ S1) < size (G ∖ S0))%nat.
Proof.
  intros HN HG Hd ->. apply subset_size.
  apply set_choose_L in HN as [x Hx]. split; [set_solver|].
  intros Hsub. assert (x ∈ G ∖ S0) as Hx0 by set_solver.
  apply Hsub in Hx0. set_solver.
Qed.

Lemma progress_raised a b :
  KB_has_changed b = true → (variant G b < variant G a)%nat → progress G a b.
Proof.
  intros Hb Hlt. split; [|split]; [by rewrite Hb | lia | by right].
Qed.

Lemma faithful_marked_safes N b self :
  faithful M G self → N ## M → faithful M G (marked_safes N b self).
Proof.
  intros [(Hs & Hm & Hk) HU] HNM. split; [split; [|split]|].
  - simpl. set_solver.
  - done.
  - simpl. rewrite Forall_map. eapply Forall_impl; [exact Hk|].
    intros s [Hc HG]. split; simpl; [|set_solver].
    rewrite Hc. do 2 f_equal. set_solver.
  - by apply undetermined_marked_safes.
Qed.

Lemma progress_marked_safes N self :
  N ≠ ∅ → N ⊆ G → N ## safes self → N ## mines self →
  progress G self (marked_safes N true self).
Proof.
  intros HN HNG HNs HNm.
  apply progress_raised; [done|]. apply variant_open. unfold open_cells. simpl.
  apply (open_cells_marked N); [done | done | set_solver | set_solver].
Qed.

Lemma faithful_marked_mines N self :
  faithful M G self → N ⊆ M → faithful M G (marked_mines N self).
Proof.
  intros [(Hs & Hm & Hk) HU] HNM. split; [split; [|split]|].
  - done.
  - simpl. set_solver.
  - simpl. rewrite Forall_map. eapply Forall_impl; [exact Hk|].
    intros s [Hc HG]. split; simpl; [|set_solver].
    rewrite Hc, (size_inter_split _ N M) by done. lia.
  - by apply undetermined_marked_mines.
Qed.

Lemma progress_marked_mines N self :
  N ≠ ∅ → N ⊆ G → N ## safes self → N ## mines self →
  progress G self (marked_mines N self).
Proof.
  intros HN HNG HNs HNm.
  apply progress_raised; [done|]. apply variant_open. unfold open_cells. simpl.
  apply (open_cells_marked N); [done | done | set_solver | set_solver].
Qed.

Lemma faithful_disjoint self : faithful M G self → safes self ## mines self.
Proof. intros [(Hs & Hm & _) _]. set_solver. Qed.

Lemma elem_of_powerset (l : list Cell) (Y : gset Cell) :
  Y ⊆ list_to_set l → Y ∈ powerset l.
Proof.
  revert Y. induction l as [|x l IH]; intros Y HY; simpl.
  - apply elem_of_singleton. set_solver.
  - apply elem_of_union. destruct (decide (x ∈ Y)) as [Hx|Hx].
    + right. apply elem_of_map. exists (Y ∖ {[x]}). split.
      * set_cases x.
      * apply IH. set_solver.
    + left. apply IH. set_solver.
Qed.

Lemma present_appended s self :
  present (appended s self) = present self ∪ {[Sentence.cells s]}.
Proof.
  unfold present. simpl. rewrite map_app, list_to_set_app_L. simpl. set_solver.
Qed.

Lemma elem_of_present (Y : gset Cell) self :
  Y ∈ present self ↔ ∃ s, s ∈ knowledge self ∧ Sentence.cells s = Y.
Proof.
  unfold present. rewrite elem_of_list_to_set, list_elem_of_fmap. naive_solver.
Qed.

Lemma faithful_appended s self :
  faithful M G self → sound_in M G s → undetermined_in self s →
  faithful M G (appended s self).
Proof.
  intros [(Hs & Hm & Hk) HU] Hss Hsu. split; [split; [|split]|]; try done.
  - simpl. apply Forall_app. split; [done | by apply Forall_singleton].
  - by apply undetermined_appended.
Qed.

Lemma progress_appended s self :
  faithful M G self → sound_in M G s → s ∉ knowledge self →
  progress G self (appended s self).
Proof.
  intros [(Hs & Hm & Hk) HU] [Hc HG] Hnew.
  apply progress_raised; [done|]. unfold variant.
  assert (absent G (appended s self) < absent G self)%nat as Ha.
  { unfold absent. rewrite present_appended. apply subset_size.
    split; [set_solver|]. intros Hsub.
    assert (Sentence.cells s ∈ powerset (elements G) ∖ present self) as Hin.
    { apply elem_of_difference. split.
      - apply elem_of_powerset. by rewrite list_to_set_elements_L.
      - intros (s' & Hs' & Hcells)%elem_of_present. apply Hnew.
        replace s with s'; [done|]. apply sentence_eq_intro; [done|].
        rewrite Forall_forall in Hk. destruct (Hk s' Hs') as [-> _].
        by rewrite Hc, Hcells. }
    apply Hsub in Hin. set_solver. }
  assert (open_cells G (appended s self) = open_cells G self) as -> by done.
  lia.
Qed.

Lemma progress_raised_stays a b :
  progress G a b → KB_has_changed a = true → KB_has_changed b = true.
Proof.
  intros (H1 & _ & _) Ha. destruct (KB_has_changed b) eqn:Hb; [done|].
  rewrite (H1 eq_refl) in Hb. congruence.
Qed.

Lemma cleaned_count_sound X n self :
  faithful M G self → n = Z.of_nat (size (X ∩ M)) →
  cleaned_count X n self = Z.of_nat (size (cleaned_cells X self ∩ M)).
Proof.
  intros [(Hs & Hm & _) _] ->. unfold cleaned_count, cleaned_cells.
  rewrite (size_inter_split X (mines self) M) by done.
  replace (X ∩ (mines self ∖ safes self)) with (X ∩ mines self) by set_solver.
  replace ((X ∖ safes self ∖ mines self) ∩ M) with ((X ∖ mines self) ∩ M) by set_solver.
  lia.
Qed.

Lemma clean_up_faithful X n self :
  faithful M G self → X ⊆ G → n = Z.of_nat (size (X ∩ M)) →
  faithful M G (clean_up X n self).2 ∧ progress G self (clean_up X n self).2 ∧
  ∀ s, (clean_up X n self).1 = Some s →
       sound_in M G s ∧ undetermined_in (clean_up X n self).2 s.
Proof.
  intros HF HX Hn. rewrite clean_up_spec. simpl.
  pose proof (cleaned_count_sound X n self HF Hn) as Hc.
  set (T := cleaned_cells X self) in *. set (n' := cleaned_count X n self) in *.
  assert (T ⊆ G ∧ T ## safes self ∧ T ## mines self) as (HTG & HTs & HTm).
  { subst T. unfold cleaned_cells. set_solver. }
  clearbody T n'.
  destruct (decide (T = ∅)) as [HT|HT]; simpl.
  { split; [|split]; [done | reflexivity | done]. }
  destruct (decide (n' = 0)) as [Hz|Hz]; simpl.
  { assert (T ## M) by (apply size_inter_none; lia).
    split; [|split]; [by apply faithful_marked_safes
                     | by apply progress_marked_safes | done]. }
  destruct (decide (Z.of_nat (size T) = n')) as [Hf|Hf]; simpl.
  { assert (T ⊆ M) by (apply size_inter_full; lia).
    split; [|split]; [by apply faithful_marked_mines
                     | by apply progress_marked_mines | done]. }
  split; [|split]; [done | reflexivity |].
  intros s [= <-]. split; [by split | by split].
Qed.

Lemma add_if_new_faithful o self :
  faithful M G self →
  (∀ s, o = Some s → sound_in M G s ∧ undetermined_in self s) →
  (o = None → knowledge self ≠ []) →
  faithful M G (add_if_new o self) ∧ progress G self (add_if_new o self).
Proof.
  intros HF Hs Hn. destruct o as [s|].
  - destruct (Hs s eq_refl) as [Hss Hsu]. rewrite add_if_new_Some.
    destruct (decide _); [split; [done | reflexivity]|].
    split; [by apply faithful_appended | by apply progress_appended].
  - rewrite add_if_new_None by auto. split; [done | reflexivity].
Qed.

Lemma add_new_sentence_faithful c n self :
  faithful M G self → neighbors c self ⊆ G →
  n = Z.of_nat (size (neighbors c self ∩ M)) →
  faithful M G (add_new_sentence c n self) ∧
  progress G self (add_new_sentence c n self).
Proof.
  intros HF HG Hn. unfold add_new_sentence.
  destruct (clean_up_faithful (neighbors c self) n self HF HG Hn) as (HF1 & HP1 & Hs).
  destruct (clean_up _ _ _) as [[s|] self1]; simpl in *; [|done].
  destruct (add_if_new_faithful (Some s) self1) as [HF2 HP2]; [done | auto | done |].
  split; [done | by etrans].
Qed.

Lemma mark_additional_cells_at_faithful self i :
  faithful M G self →
  faithful M G (mark_additional_cells_at self i) ∧
  progress G self (mark_additional_cells_at self i).
Proof.
  intros HF. rewrite mark_additional_cells_at_spec.
  destruct (knowledge self !! i) as [s|] eqn:Hi; [|split; [done | reflexivity]].
  apply list_elem_of_lookup_2 in Hi.
  destruct HF as [(Hs & Hm & Hk) HU].
  pose proof (proj1 (Forall_forall _ _) Hk s Hi) as [Hc HG].
  pose proof (proj1 (Forall_forall _ _) HU s Hi) as [Hus Hum].
  assert (faithful M G self) as HF by (split; [split|]; done).
  destruct (decide _) as [[Hne Hsz]|_].
  { rewrite mark_mines_fresh by done.
    assert (Sentence.cells s ⊆ M) by (apply size_inter_full; lia).
    split; [by apply (faithful_marked_mines _ self)
           | by apply (progress_marked_mines _ self)]. }
  destruct (decide _) as [[Hne Hz]|_]; [|split; [done | reflexivity]].
  rewrite mark_safes_fresh by done.
  assert (Sentence.cells s ## M) by (apply size_inter_none; lia).
  split; [by apply (faithful_marked_safes _ true self)
         | by apply (progress_marked_safes _ self)].
Qed.

Lemma mark_additional_cells_faithful self :
  faithful M G self →
  faithful M G (mark_additional_cells self) ∧
  progress G self (mark_additional_cells self).
Proof.
  apply foldl_invariant; [apply _|]. intros s i _.
  apply mark_additional_cells_at_faithful.
Qed.

Lemma inferred_faithful X n self :
  faithful M G self → X ⊆ G → n = Z.of_nat (size (X ∩ M)) → knowledge self ≠ [] →
  faithful M G (let '(o, self') := clean_up X n self in add_if_new o self') ∧
  progress G self (let '(o, self') := clean_up X n self in add_if_new o self').
Proof.
  intros HF HX Hn Hk.
  destruct (clean_up_faithful X n self HF HX Hn) as (HF1 & HP1 & Hs).
  destruct HF as [_ HU].
  destruct (clean_up_keeps X n self HU) as (_ & (_ & _ & _ & Hlen & _) & _).
  destruct (clean_up X n self) as [o self1]; simpl in *.
  destruct (add_if_new_faithful o self1) as [HF2 HP2]; [done | done | |].
  { intros _ Hnil. rewrite Hnil in Hlen. destruct (knowledge self); simpl in *; [done | lia]. }
  split; [done | by etrans].
Qed.

Lemma add_inferred_sentence_at_faithful self p :
  faithful M G self →
  faithful M G (add_inferred_sentence_at self p) ∧
  progress G self (add_inferred_sentence_at self p).
Proof.
  intros HF. unfold add_inferred_sentence_at.
  destruct (knowledge self !! p.1) as [s1|] eqn:H1; [|split; [done | reflexivity]].
  destruct (knowledge self !! p.2) as [s2|] eqn:H2; [|split; [done | reflexivity]].
  assert (knowledge self ≠ []) as Hne by (intros Hnil; by rewrite Hnil in H1).
  apply list_elem_of_lookup_2 in H1, H2.
  pose proof HF as [(_ & _ & Hk) _].
  pose proof (proj1 (Forall_forall _ _) Hk s1 H1) as [Hc1 HG1].
  pose proof (proj1 (Forall_forall _ _) Hk s2 H2) as [Hc2 HG2].
  case_bool_decide as Hsub; [|case_bool_decide as Hsub'].
  - apply inferred_faithful; [done | set_solver | | done].
    rewrite Hc1, Hc2, (size_inter_split _ (Sentence.cells s1 ∩ M) M) by set_solver.
    replace (Sentence.cells s2 ∩ (Sentence.cells s1 ∩ M))
      with (Sentence.cells s1 ∩ M) by set_solver.
    replace ((Sentence.cells s2 ∖ (Sentence.cells s1 ∩ M)) ∩ M)
      with ((Sentence.cells s2 ∖ Sentence.cells s1) ∩ M) by set_solver.
    lia.
  - apply inferred_faithful; [done | set_solver | | done].
    rewrite Hc1, Hc2, (size_inter_split _ (Sentence.cells s2 ∩ M) M) by set_solver.
    replace (Sentence.cells s1 ∩ (Sentence.cells s2 ∩ M))
      with (Sentence.cells s2 ∩ M) by set_solver.
    replace ((Sentence.cells s1 ∖ (Sentence.cells s2 ∩ M)) ∩ M)
      with ((Sentence.cells s1 ∖ Sentence.cells s2) ∩ M) by set_solver.
    lia.
  - split; [done | reflexivity].
Qed.

Lemma add_inferred_sentence_faithful self :
  faithful M G self →
  faithful M G (add_inferred_sentence self) ∧
  progress G self (add_inferred_sentence self).
Proof.
  apply foldl_invariant; [apply _|]. intros s i _.
  apply add_inferred_sentence_at_faithful.
Qed.

Lemma pass_faithful self :
  faithful M G self →
  faithful M G (pass self) ∧ progress G (set_changed false self) (pass self).
Proof.
  intros HF. unfold pass.
  destruct (mark_additional_cells_faithful (set_changed false self) HF) as [HF1 HP1].
  destruct (add_inferred_sentence_faithful _ HF1) as [HF2 HP2].
  split; [done | by etrans].
Qed.

Lemma mark_additional_cells_at_raises self i s :
  undetermined self → knowledge self !! i = Some s → resolvable s →
  KB_has_changed (mark_additional_cells_at self i) = true.
Proof.
  intros HU Hi Hr. rewrite mark_additional_cells_at_spec, Hi.
  apply list_elem_of_lookup_2 in Hi.
  pose proof (proj1 (Forall_forall _ _) HU s Hi) as [Hus Hum].
  destruct (decide _) as [[Hne Hsz]|Hnm].
  { by rewrite mark_mines_fresh. }
  destruct (decide _) as [[Hne Hz]|Hns].
  { by rewrite mark_safes_fresh. }
  destruct Hr as [Hr%truthy_known_mines | Hr%truthy_known_safes]; tauto.
Qed.

Lemma mark_additional_cells_over_settled self (l : list nat) :
  faithful M G self →
  KB_has_changed (foldl mark_additional_cells_at self l) = false →
  ∀ i s, i ∈ l → knowledge self !! i = Some s → ¬ resolvable s.
Proof.
  revert self. induction l as [|j l IH]; intros self HF Hflag i s Hi Hs.
  { by apply elem_of_nil in Hi. }
  simpl in Hflag.
  destruct (mark_additional_cells_at_faithful self j HF) as [HF1 HP1].
  destruct (foldl_invariant (faithful M G) (progress G) mark_additional_cells_at l
              (fun s i _ => mark_additional_cells_at_faithful s i) _ HF1) as [_ HP2].
  pose proof (proj1 HP2 Hflag) as Heq. rewrite Heq in Hflag.
  pose proof (proj1 HP1 Hflag) as Heq1.
  apply elem_of_cons in Hi as [->|Hi].
  - intros Hr. destruct HF as [_ HU].
    rewrite (mark_additional_cells_at_raises self j s HU Hs Hr) in Hflag. done.
  - apply (IH self HF) with i; [|done|done]. rewrite <- Heq1 at 1. by rewrite Heq.
Qed.

Lemma mark_additional_cells_settled self :
  faithful M G self → KB_has_changed (mark_additional_cells self) = false →
  settled self.
Proof.
  intros HF Hflag. apply Forall_forall. intros s Hs.
  apply list_elem_of_lookup_1 in Hs as [i Hi].
  apply (mark_additional_cells_over_settled self _ HF Hflag i s); [|done].
  apply elem_of_seq. apply lookup_lt_Some in Hi. lia.
Qed.

(** A turn of the loop that leaves the flag down started from a
    settled state and changed nothing. *)
Lemma pass_quiet self :
  faithful M G self → KB_has_changed (pass self) = false →
  pass self = set_changed false self ∧ settled self.
Proof.
  intros HF Hflag. destruct (pass_faithful self HF) as [_ HP]. split.
  { by apply HP. }
  unfold pass in Hflag.
  destruct (mark_additional_cells_faithful (set_changed false self) HF) as [HF1 HP1].
  destruct (add_inferred_sentence_faithful _ HF1) as [_ HP2].
  rewrite (proj1 HP2 Hflag) in Hflag.
  apply (mark_additional_cells_settled (set_changed false self) HF Hflag).
Qed.

(** The [while] loop comes to an end. *)
Lemma loop_terminates_within n self :
  (variant G self ≤ n)%nat → faithful M G self →
  ∃ fuel self', loop fuel self = Some self' ∧ faithful M G self' ∧
                KB_has_changed self' = false ∧
                (KB_has_changed self = true → settled self').
Proof.
  revert self. induction n as [|n IH]; intros self Hn HF.
  - destruct (KB_has_changed self) eqn:Hflag.
    + destruct (pass_faithful self HF) as [HF1 HP1].
      destruct (KB_has_changed (pass self)) eqn:Hflag1.
      * destruct HP1 as (_ & _ & HP1). destruct (HP1 Hflag1) as [?|Hlt]; [done|].
        assert (variant G (set_changed false self) = variant G self) as Hv by done.
        lia.
      * exists 1%nat, (pass self). simpl. rewrite Hflag, Hflag1.
        destruct (pass_quiet self HF Hflag1) as [Heq Hst].
        split; [done|]. split; [done|]. split; [done|]. intros _. by rewrite Heq.
    + exists 0%nat, self. simpl. rewrite Hflag. done.
  - destruct (KB_has_changed self) eqn:Hflag.
    + destruct (pass_faithful self HF) as [HF1 HP1].
      destruct (KB_has_changed (pass self)) eqn:Hflag1.
      * destruct HP1 as (_ & _ & HP1). destruct (HP1 Hflag1) as [?|Hlt]; [done|].
        assert (variant G (set_changed false self) = variant G self) as Hv by done.
        destruct (IH (pass self)) as (fuel & self' & Hl & HF' & Hf' & Hst); [lia | done |].
        exists (S fuel), self'. simpl. rewrite Hflag. auto.
      * exists 1%nat, (pass self). simpl. rewrite Hflag, Hflag1.
        destruct (pass_quiet self HF Hflag1) as [Heq Hst].
        split; [done|]. split; [done|]. split; [done|]. intros _. by rewrite Heq.
    + exists 0%nat, self. simpl. rewrite Hflag. done.
Qed.

Lemma loop_terminates self :
  faithful M G self →
  ∃ fuel self', loop fuel self = Some self' ∧ faithful M G self' ∧
                KB_has_changed self' = false ∧
                (KB_has_changed self = true → settled self').
Proof. by apply (loop_terminates_within (variant G self)). Qed.

(** [add_knowledge] with a true clue returns, in a state that is
    faithful again and settled. *)
Lemma add_knowledge_terminates c n self :
  faithful M G self → c ∉ M → neighbors c self ⊆ G →
  n = Z.of_nat (size (neighbors c self ∩ M)) →
  ∃ fuel self', add_knowledge fuel c n self = Some self' ∧
                faithful M G self' ∧ settled self'.
Proof.
  intros HF Hc HG Hn. unfold add_knowledge.
  set (self0 := set_moves_made _ self).
  assert (faithful M G self0) as HF0 by done.
  assert (c ∉ mines self0) as Hcm.
  { destruct HF as [(_ & Hm & _) _]. simpl. set_solver. }
  rewrite (mark_safe_new _ _ Hcm).
  assert (faithful M G (marked_safes {[c]} true self0)) as HF1.
  { apply faithful_marked_safes; [done | set_solver]. }
  destruct (add_new_sentence_faithful c n _ HF1) as [HF2 HP2]; [done | done |].
  destruct (mark_additional_cells_faithful _ HF2) as [HF3 HP3].
  destruct (add_inferred_sentence_faithful _ HF3) as [HF4 HP4].
  destruct (loop_terminates _ HF4) as (fuel & self' & Hl & HF' & _ & Hst).
  exists fuel, self'. split; [done|]. split; [done|]. apply Hst.
  apply (progress_raised_stays _ _ HP4), (progress_raised_stays _ _ HP3),
    (progress_raised_stays _ _ HP2). done.
Qed.

End truthful.

Lemma loop_more_fuel fuel fuel' self self' :
  loop fuel self = Some self' → (fuel ≤ fuel')%nat → loop fuel' self = Some self'.
Proof.
  revert fuel' self. induction fuel as [|fuel IH]; intros fuel' self; simpl.
  - destruct (KB_has_changed self) eqn:Hf; [done|]. intros [= <-] _.
    destruct fuel'; simpl; by rewrite Hf.
  - destruct (KB_has_changed self) eqn:Hf.
    + intros Hl Hle. destruct fuel' as [|fuel']; [lia|]. simpl. rewrite Hf.
      apply IH; [done | lia].
    + intros [= <-] _. destruct fuel'; simpl; by rewrite Hf.
Qed.

Lemma exec_more_fuel fuel fuel' o self self' :
  exec fuel o self = Some self' → (fuel ≤ fuel')%nat → exec fuel' o self = Some self'.
Proof.
  destruct o; simpl; try done. unfold add_knowledge. apply loop_more_fuel.
Qed.

Lemma run_more_fuel fuel fuel' ops self self' :
  run fuel ops self = Some self' → (fuel ≤ fuel')%nat → run fuel' ops self = Some self'.
Proof.
  revert self. induction ops as [|o ops IH]; intros self; simpl; [done|].
  destruct (exec fuel o self) as [self1|] eqn:He; simpl; [|done].
  intros Hr Hle. rewrite (exec_more_fuel _ _ _ _ _ He Hle). simpl. by apply IH.
Qed.

Lemma exec_deterministic fuel fuel' o self self1 self2 :
  exec fuel o self = Some self1 → exec fuel' o self = Some self2 → self1 = self2.
Proof.
  intros H1 H2.
  apply (exec_more_fuel _ (fuel `max` fuel')%nat) in H1; [|lia].
  apply (exec_more_fuel _ (fuel `max` fuel')%nat) in H2; [|lia].
  congruence.
Qed.

(** ** Runs that tell the truth about a board *)

Lemma all_possible_moves_same a b :
  height a = height b → width a = width b →
  all_possible_moves a = all_possible_moves b.
Proof. unfold all_possible_moves. by intros -> ->. Qed.

Lemma faithful_to_init g :
  faithful_to g (init (Minesweeper.height g) (Minesweeper.width g)).
Proof.
  split; [done|]. split; [done|]. split; [|apply undetermined_init].
  split; [|split]; simpl; [set_solver | set_solver | constructor].
Qed.

Lemma faithful_to_grows g a b :
  faithful_to g a → grows a b →
  faithful (Minesweeper.mines g) (all_possible_moves a) b → faithful_to g b.
Proof.
  intros (Hh & Hw & _) (_ & _ & _ & _ & Hh' & Hw') HF.
  split; [congruence|]. split; [congruence|].
  by rewrite (all_possible_moves_same b a).
Qed.

Lemma exec_consistent_terminates g o self :
  faithful_to g self → consistent g o →
  ∃ fuel self', exec fuel o self = Some self' ∧ faithful_to g self' ∧
                (∀ c n, o = Observe c n → settled self').
Proof.
  intros HFt Ho. pose proof HFt as (Hh & Hw & HF).
  destruct o as [c n|c|c| |]; simpl in *.
  - destruct Ho as [Hc ->]. apply bool_decide_eq_false in Hc.
    destruct (add_knowledge_terminates (Minesweeper.mines g) (all_possible_moves self)
                c (Minesweeper.nearby_mines c g) self) as (fuel & self' & Hr & HF' & Hst);
      [done | done | apply neighbors_in_grid | by apply nearby_mines_spec |].
    exists fuel, self'. split; [done|]. split; [|done].
    apply (faithful_to_grows g self); [done | | done].
    apply (add_knowledge_keeps _ _ _ _ _ Hr), HF.
  - exists 0%nat, (mark_mine c self). split; [done|]. split; [|done].
    apply (faithful_to_grows g self); [done | apply mark_mine_keeps, HF |].
    destruct (mark_mine_cases c self) as [-> | ->]; [|done].
    apply faithful_marked_mines; [done | set_solver].
  - exists 0%nat, (mark_safe c self). split; [done|]. split; [|done].
    apply (faithful_to_grows g self); [done | apply mark_safe_keeps, HF |].
    destruct (mark_safe_cases c self) as [-> | ->]; [|done].
    apply faithful_marked_safes; [done | set_solver].
  - exists 0%nat, self. unfold make_safe_move. by case_bool_decide.
  - exists 0%nat, self. unfold make_random_move. by case_bool_decide.
Qed.

Lemma exec_consistent_faithful g fuel o self self' :
  faithful_to g self → consistent g o → exec fuel o self = Some self' →
  faithful_to g self' ∧ (∀ c n, o = Observe c n → settled self').
Proof.
  intros HF Ho He.
  destruct (exec_consistent_terminates g o self HF Ho) as (fuel' & self'' & He' & HF' & Hst).
  by rewrite (exec_deterministic _ _ _ _ _ _ He He').
Qed.

Lemma run_consistent_faithful g fuel ops self self' :
  faithful_to g self → Forall (consistent g) ops → run fuel ops self = Some self' →
  faithful_to g self'.
Proof.
  revert self. induction ops as [|o ops IH]; intros self HF Hops; simpl.
  - by intros [= <-].
  - apply Forall_cons in Hops as [Ho Hops].
    destruct (exec fuel o self) as [self1|] eqn:He; simpl; [|done].
    apply IH; [|done]. by apply (exec_consistent_faithful g fuel o self).
Qed.

Lemma run_consistent_terminates g ops self :
  faithful_to g self → Forall (consistent g) ops →
  ∃ fuel self', run fuel ops self = Some self'.
Proof.
  revert self. induction ops as [|o ops IH]; intros self HF Hops.
  - by exists 0%nat, self.
  - apply Forall_cons in Hops as [Ho Hops].
    destruct (exec_consistent_terminates g o self HF Ho) as (f1 & self1 & He & HF1 & _).
    destruct (IH self1 HF1 Hops) as (f2 & self' & Hr).
    exists (f1 `max` f2)%nat, self'. simpl.
    rewrite (exec_more_fuel _ (f1 `max` f2)%nat _ _ _ He) by lia. simpl.
    apply (run_more_fuel _ _ _ _ _ Hr). lia.
Qed.

(** ** The pairs visited by the inference *)

Lemma elem_of_combinations2 {A} (R : relation A) (l : list A) (x y : A) :
  StronglySorted R l → (∀ a b, R a b → ¬ R b a) →
  (x, y) ∈ combinations2 l ↔ x ∈ l ∧ y ∈ l ∧ R x y.
Proof.
  intros Hs Hasym. induction Hs as [|a l Hs IH Ha]; simpl.
  { split; [by intros ?%elem_of_nil | by intros [?%elem_of_nil _]]. }
  rewrite Forall_forall in Ha.
  rewrite elem_of_app, list_elem_of_fmap, IH, !elem_of_cons. split.
  - intros [(z & [= -> ->] & Hz) | (Hx & Hy & HR)]; [|by auto].
    split; [by left|]. split; [by right | by apply Ha].
  - intros ([-> | Hx] & [-> | Hy] & HR).
    + destruct (Hasym _ _ HR HR).
    + left. by exists y.
    + destruct (Hasym _ _ HR (Ha _ Hx)).
    + by right.
Qed.

Lemma indexed_sorted (k : list Sentence.t) (n : nat) :
  StronglySorted (fun p q : nat * Sentence.t => (p.1 < q.1)%nat)
    (imap (fun i s => ((n + i)%nat, s)) k).
Proof.
  revert n. induction k as [|s k IH]; intros n; simpl; constructor.
  - rewrite (imap_ext _ (fun i s => ((S n + i)%nat, s))); [apply IH|].
    intros i x _. simpl. f_equal. lia.
  - apply Forall_forall. intros q (i & x & -> & _)%elem_of_lookup_imap. simpl. lia.
Qed.

Lemma filter_sorted {A} (R : relation A) (P : A → Prop) `{!∀ x, Decision (P x)}
    (l : list A) :
  StronglySorted R l → StronglySorted R (filter P l).
Proof.
  induction 1 as [|a l Hs IH Ha]; [constructor|].
  rewrite filter_cons. destruct (decide (P a)); [|done].
  constructor; [done|]. rewrite Forall_forall in *.
  intros x [_ Hx]%list_elem_of_filter. by apply Ha.
Qed.

Lemma is_not_empty_true s : is_not_empty s = true ↔ s ≠ empty.
Proof.
  unfold is_not_empty. rewrite negb_true_iff, <- not_true_iff_false, sentence_eq_true.
  done.
Qed.

(** The pairs are those of two stored sentences, the first stored before
    the second, none of them the empty sentence, and not equal. *)
Lemma elem_of_unique_pairs self (i j : nat) :
  (i, j) ∈ unique_pairs self ↔
  ∃ s1 s2, knowledge self !! i = Some s1 ∧ knowledge self !! j = Some s2 ∧
           (i < j)%nat ∧ s1 ≠ empty ∧ s2 ≠ empty ∧ s1 ≠ s2.
Proof.
  unfold unique_pairs. rewrite list_elem_of_fmap.
  set (R := fun p q : nat * Sentence.t => (p.1 < q.1)%nat).
  assert (∀ x y, (x, y) ∈ combinations2
            (filter (fun p => is_not_empty p.2 = true)
               (imap (fun i s => (i, s)) (knowledge self))) ↔
          knowledge self !! x.1 = Some x.2 ∧ knowledge self !! y.1 = Some y.2 ∧
          x.2 ≠ empty ∧ y.2 ≠ empty ∧ (x.1 < y.1)%nat) as Hc.
  { intros x y. rewrite (elem_of_combinations2 R).
    - rewrite !list_elem_of_filter, !elem_of_lookup_imap, !is_not_empty_true.
      destruct x as [i1 s1], y as [i2 s2]. subst R. simpl. split.
      + intros ([? (?&?&[= -> ->]&?)] & [? (?&?&[= -> ->]&?)] & ?). done.
      + intros (?&?&?&?&?). split; [|split]; [split; [done|] | split; [done|] | done];
          eexists _, _; done.
    - apply filter_sorted. apply (indexed_sorted _ 0).
    - subst R. simpl. lia. }
  split.
  - intros ([[i1 s1] [i2 s2]] & [= -> ->] & [Hne Hin]%list_elem_of_filter).
    apply Hc in Hin as (?&?&?&?&?). simpl in *. exists s1, s2.
    repeat (split; [done|]). intros ->. unfold are_identicals in Hne.
    apply not_true_iff_false in Hne. apply Hne. by apply sentence_eq_true.
  - intros (s1 & s2 & H1 & H2 & Hlt & Hn1 & Hn2 & Hne).
    exists ((i, s1), (j, s2)). split; [done|]. apply list_elem_of_filter. split.
    + simpl. unfold are_identicals. apply not_true_iff_false.
      by rewrite sentence_eq_true.
    + by apply Hc.
Qed.

(** The branch of [add_if_new] that would append [None] needs an empty
    list, and the loop of [add_inferred_sentence] runs over pairs of
    stored sentences. *)
Lemma unique_pairs_length self p :
  p ∈ unique_pairs self → (2 ≤ length (knowledge self))%nat.
Proof.
  destruct p as [i j]. intros (s1 & s2 & _ & Hj & Hlt & _)%elem_of_unique_pairs.
  apply lookup_lt_Some in Hj. lia.
Qed.

(** ** Helpers for the statements about runs *)

Lemma run_app fuel ops1 ops2 self :
  run fuel (ops1 ++ ops2) self = self1 ← run fuel ops1 self; run fuel ops2 self1.
Proof.
  revert self. induction ops1 as [|o ops1 IH]; intros self; simpl; [done|].
  destruct (exec fuel o self); simpl; [apply IH | done].
Qed.

Lemma faithful_bounds M G self s :
  faithful M G self → s ∈ knowledge self →
  0 <= Sentence.count s <= Z.of_nat (size (Sentence.cells s)).
Proof.
  intros [(_ & _ & Hk) _] Hs.
  destruct (proj1 (Forall_forall _ _) Hk s Hs) as [-> _].
  pose proof (size_inter_le (Sentence.cells s) M). lia.
Qed.

Lemma settled_sentence M G self s :
  faithful M G self → settled self → s ∈ knowledge self →
  s = empty ∨
  (undetermined_in self s ∧
   0 < Sentence.count s < Z.of_nat (size (Sentence.cells s))).
Proof.
  intros HF Hst Hs.
  pose proof (faithful_bounds M G self s HF Hs) as Hb.
  destruct HF as [(_ & _ & Hk) HU].
  destruct (proj1 (Forall_forall _ _) Hk s Hs) as [Hc _].
  pose proof (proj1 (Forall_forall _ _) HU s Hs) as Hu.
  pose proof (proj1 (Forall_forall _ _) Hst s Hs) as Hr.
  destruct (decide (Sentence.cells s = ∅)) as [He|Hne].
  - left. apply sentence_eq_intro; simpl; [done|].
    rewrite Hc, He. replace (∅ ∩ M) with (∅ : gset Cell) by set_solver.
    by rewrite size_empty.
  - right. split; [done|].
    assert (Sentence.count s ≠ 0).
    { intros Hz. apply Hr. right. by apply truthy_known_safes. }
    assert (Z.of_nat (size (Sentence.cells s)) ≠ Sentence.count s).
    { intros Hz. apply Hr. left. by apply truthy_known_mines. }
    lia.
Qed.

(** * The claims *)

(** C1. Pairwise inference.  Every pair of stored sentences, the first
    stored before the second, none of them the empty sentence and the two
    not equal, is visited by [add_inferred_sentence]; at a pair whose
    first sentence has a strict subset of the cells of the second, the
    round cleans up the sentence made of the difference of the cells and
    of the difference of the counts, and hands the result to
    [add_if_new], which appends a sentence only if no equal one is
    stored; the same with the roles exchanged.  From {a,b} = 1 and
    {a,b,c} = 2 the sentence derived is {c} = 1, and the call marks [c]
    as a mine. *)
Theorem subset_inference (self : t) :
  (∀ i j A B,
     knowledge self !! i = Some A → knowledge self !! j = Some B → (i < j)%nat →
     A ≠ empty → B ≠ empty → A ≠ B → (i, j) ∈ unique_pairs self) ∧
  add_inferred_sentence self = foldl add_inferred_sentence_at self (unique_pairs self) ∧
  (∀ now i j A B,
     knowledge now !! i = Some A → knowledge now !! j = Some B →
     (Sentence.cells A ⊂ Sentence.cells B →
      add_inferred_sentence_at now (i, j) =
        let '(sent, now') :=
          clean_up (Sentence.cells B ∖ Sentence.cells A)
                   (Sentence.count B - Sentence.count A) now in
        add_if_new sent now') ∧
     (Sentence.cells B ⊂ Sentence.cells A →
      add_inferred_sentence_at now (i, j) =
        let '(sent, now') :=
          clean_up (Sentence.cells A ∖ Sentence.cells B)
                   (Sentence.count A - Sentence.count B) now in
        add_if_new sent now')) ∧
  (∀ s now,
     add_if_new (Some s) now = if decide (s ∈ knowledge now) then now else appended s now) ∧
  (∀ a b c : Cell,
     a ≠ b → a ≠ c → b ≠ c →
     {[a; b; c]} ## safes self → {[a; b; c]} ## mines self →
     knowledge self = [Sentence.mk {[a; b]} 1; Sentence.mk {[a; b; c]} 2] →
     cleaned_cells ({[a; b; c]} ∖ {[a; b]}) self = {[c]} ∧
     cleaned_count ({[a; b; c]} ∖ {[a; b]}) (2 - 1) self = 1 ∧
     add_inferred_sentence self = mark_mine c self ∧
     c ∈ mines (add_inferred_sentence self)).
Proof.
  split; [|split; [|split; [|split]]].
  - intros i j A B HA HB Hlt HnA HnB Hne. apply elem_of_unique_pairs.
    by exists A, B.
  - done.
  - intros now i j A B HA HB. unfold add_inferred_sentence_at. simpl.
    rewrite HA, HB. split; intros Hsub.
    + by rewrite bool_decide_eq_true_2.
    + rewrite bool_decide_eq_false_2; [by rewrite bool_decide_eq_true_2|].
      intros Hsub'. destruct Hsub as [? Hn], Hsub' as [? _]. by apply Hn.
  - intros s now. apply add_if_new_Some.
  - intros a b c Hab Hac Hbc Hs Hm Hk.
    assert (({[a; b; c]} ∖ {[a; b]} : gset Cell) = {[c]}) as Hd.
    { apply set_eq. intros x. destruct (decide (x = a)), (decide (x = b)); set_solver. }
    assert (cleaned_cells ({[a; b; c]} ∖ {[a; b]}) self = {[c]}) as HT.
    { rewrite Hd. unfold cleaned_cells. set_solver. }
    assert (cleaned_count ({[a; b; c]} ∖ {[a; b]}) (2 - 1) self = 1) as Hn.
    { rewrite Hd. unfold cleaned_count.
      replace ({[c]} ∩ (mines self ∖ safes self)) with (∅ : gset Cell) by set_solver.
      rewrite size_empty. lia. }
    assert (add_inferred_sentence self = mark_mine c self) as Hr.
    { assert (unique_pairs self = [(0, 1)%nat]) as Hp.
      { unfold unique_pairs. rewrite Hk. simpl.
        rewrite !filter_cons, filter_nil. simpl.
        rewrite decide_True by (apply is_not_empty_true; intros [=]).
        rewrite decide_True by (apply is_not_empty_true; intros [=]).
        simpl. rewrite filter_cons, filter_nil. simpl. rewrite decide_True; [done|].
        unfold are_identicals. apply not_true_iff_false.
        rewrite sentence_eq_true. intros [=]. }
      unfold add_inferred_sentence. rewrite Hp. simpl.
      unfold add_inferred_sentence_at. rewrite Hk. simpl.
      rewrite bool_decide_eq_true_2.
      2:{ split; [set_solver|]. intros Hsub. specialize (Hsub c). set_solver. }
      rewrite clean_up_spec. cbv zeta. rewrite HT, Hn.
      rewrite decide_False by set_solver. rewrite decide_False by lia.
      rewrite size_singleton. rewrite decide_True by done.
      rewrite add_if_new_None by (simpl; by rewrite Hk).
      by rewrite mark_mine_new by set_solver. }
    split; [done|]. split; [done|]. split; [done|].
    rewrite Hr, mark_mine_new by set_solver. simpl. set_solver.
Qed.

Lemma subset_inference_witness :
  let self := mk 3 3 ∅ ∅ ∅ [Sentence.mk {[ (0, 0); (0, 1) ]} 1;
                           Sentence.mk {[ (0, 0); (0, 1); (0, 2) ]} 2] false in
  (0, 1)%nat ∈ unique_pairs self ∧
  add_inferred_sentence self = mark_mine (0, 2) self ∧
  (0, 2) ∈ mines (add_inferred_sentence self).
Proof.
  intros self.
  destruct (subset_inference self) as (Hpairs & _ & _ & _ & Hex).
  split.
  - apply (Hpairs 0%nat 1%nat (Sentence.mk {[ (0, 0); (0, 1) ]} 1)
             (Sentence.mk {[ (0, 0); (0, 1); (0, 2) ]} 2));
      [reflexivity | reflexivity | lia | intros [=] | intros [=] | intros [=]].
  - destruct (Hex (0, 0) (0, 1) (0, 2)) as (_ & _ & Hr & Hc);
      [intros [=] | intros [=] | intros [=] | | | reflexivity | by split].
    + apply (bool_decide_unpack _). vm_compute. exact I.
    + apply (bool_decide_unpack _). vm_compute. exact I.
Defined.

(** C2. Clean-up and immediate resolution.  [clean_up] drops from the
    candidate cells those known safe, leaving the count alone, and those
    known as mines, taking one off the count for each (when the two
    registries are disjoint these are all the known mines among the
    cells; a cell in both counts as safe).  With a count of 0 left, every
    cell left is marked safe and there is no sentence to store; with as
    many cells left as the count, every cell left is marked as a mine and
    there is no sentence to store; otherwise nothing is marked and the
    sentence of the cells and count left is the one to store, unless no
    cell is left.  [add_if_new] appends it only if no equal sentence is
    stored, and [add_new_sentence] stores nothing when [clean_up] gave no
    sentence. *)
Theorem clean_up_resolves_or_stores (X : gset Cell) (n : Z) (self : t) :
  let T := X ∖ safes self ∖ mines self in
  let k := n - Z.of_nat (size (X ∩ (mines self ∖ safes self))) in
  let r := clean_up X n self in
  (safes self ## mines self → k = n - Z.of_nat (size (X ∩ mines self))) ∧
  (k = 0 →
   r.1 = None ∧ r.2 = mark_safes T self ∧ T ⊆ safes r.2 ∧
   length (knowledge r.2) = length (knowledge self)) ∧
  (k ≠ 0 → Z.of_nat (size T) = k →
   r.1 = None ∧ r.2 = mark_mines T self ∧ T ⊆ mines r.2 ∧
   length (knowledge r.2) = length (knowledge self)) ∧
  (k ≠ 0 → Z.of_nat (size T) ≠ k →
   r.2 = self ∧ r.1 = if decide (T = ∅) then None else Some (Sentence.mk T k)) ∧
  (∀ s now,
     add_if_new (Some s) now = if decide (s ∈ knowledge now) then now else appended s now) ∧
  (∀ cell,
     add_new_sentence cell n self =
       match clean_up (neighbors cell self) n self with
       | (Some s, now) => add_if_new (Some s) now
       | (None, now) => now
       end).
Proof.
  intros T k r.
  assert (T ## safes self ∧ T ## mines self) as [HTs HTm] by (subst T; set_solver).
  assert (r = if decide (T = ∅) then (None, self)
              else if decide (k = 0) then (None, marked_safes T true self)
              else if decide (Z.of_nat (size T) = k) then (None, marked_mines T self)
              else (Some (Sentence.mk T k), self)) as Hr.
  { subst r. by rewrite clean_up_spec. }
  clearbody r T. split; [|split; [|split; [|split; [|split]]]].
  - intros Hd. subst k. do 3 f_equal. set_solver.
  - intros Hk. destruct (decide (T = ∅)) as [->|HT].
    + subst r. simpl. split; [done|]. split; [|by split].
      unfold mark_safes. by rewrite elements_empty.
    + rewrite decide_True in Hr by done. subst r. simpl. rewrite length_map.
      rewrite mark_safes_fresh by done. split; [done|]. split; [done|].
      split; [|done]. simpl. set_solver.
  - intros Hk Hs. destruct (decide (T = ∅)) as [->|HT].
    { rewrite size_empty in Hs. simpl in Hs. lia. }
    rewrite decide_False, decide_True in Hr by done. subst r. simpl.
    rewrite length_map, mark_mines_fresh by done. split; [done|]. split; [done|].
    split; [|done]. simpl. set_solver.
  - intros Hk Hs. destruct (decide (T = ∅)) as [->|HT]; [by subst r|].
    rewrite !decide_False in Hr by done. by subst r.
  - intros s now. apply add_if_new_Some.
  - intros cell. unfold add_new_sentence.
    by destruct (clean_up _ _ _) as [[s|] now].
Qed.

Lemma clean_up_resolves_or_stores_witness :
  let self := mk 3 3 ∅ {[ (0, 0) ]} {[ (0, 1) ]} [] false in
  let X : gset Cell := {[ (0, 0); (0, 1); (1, 0); (1, 1) ]} in
  safes self ## mines self ∧
  3 - Z.of_nat (size (X ∩ (mines self ∖ safes self))) =
    3 - Z.of_nat (size (X ∩ mines self)) ∧
  (clean_up X 3 self).1 = None ∧
  X ∖ safes self ∖ mines self ⊆ mines (clean_up X 3 self).2.
Proof.
  intros self X.
  assert (safes self ## mines self) as Hd.
  { apply (bool_decide_unpack _). vm_compute. exact I. }
  destruct (clean_up_resolves_or_stores X 3 self) as (Hk & _ & Hm & _).
  split; [exact Hd|]. split; [exact (Hk Hd)|].
  destruct Hm as (H1 & _ & H2 & _);
    [vm_compute; discriminate | vm_compute; reflexivity |].
  split; [exact H1 | exact H2].
Defined.

(** C3. The three clues of the corner board.  On a fresh knowledge base
    for a 3×3 grid, the clues the board with a single mine at (0,0)
    gives for (1,1), (0,1) and (1,0), each of them 1, lead to the
    state whose only known mine is (0,0) and whose known safes are the
    eight other cells of the grid; one turn of the loop is enough for
    each call, and the result is the same with more fuel. *)
Theorem three_clues_find_the_mine :
  corner_clues = [Observe (1, 1) 1; Observe (0, 1) 1; Observe (1, 0) 1] ∧
  (∀ fuel, (1 ≤ fuel)%nat → run fuel corner_clues (init 3 3) = Some corner_solved) ∧
  mines corner_solved = {[ (0, 0) ]} ∧
  safes corner_solved = all_possible_moves corner_solved ∖ {[ (0, 0) ]}.
Proof.
  split; [by vm_compute|]. split; [|split].
  - intros fuel Hf. apply (run_more_fuel 1); [|done]. vm_compute. reflexivity.
  - reflexivity.
  - vm_compute. reflexivity.
Qed.

(** C4. A cell marked safe and then marked as a mine is in both
    registries: [mark_mine] looks at [mines] only, while [mark_safe]
    leaves a known mine out of [safes] and so keeps the two registries
    disjoint. *)
Theorem mark_mine_on_safe_cell :
  run 0 [MarkSafe (0, 0); MarkMine (0, 0)] (init 3 3) = Some overlapping_state ∧
  (0, 0) ∈ safes overlapping_state ∧ (0, 0) ∈ mines overlapping_state ∧
  run 0 [MarkMine (0, 0); MarkSafe (0, 0)] (init 3 3)
    = Some (mk 3 3 ∅ {[ (0, 0) ]} ∅ [] false).
Proof.
  split; [vm_compute; reflexivity|]. split; [|split].
  - apply (bool_decide_unpack _). vm_compute. exact I.
  - apply (bool_decide_unpack _). vm_compute. exact I.
  - vm_compute. reflexivity.
Qed.

(** C5, as stated, fails: after two clues that no board gives together,
    the stored sentence has the count -1. *)
Lemma stored_count_out_of_range :
  run 1 clashing_clues (init 3 3) = Some clashing_state ∧
  ¬ (∀ s, s ∈ knowledge clashing_state →
          0 <= Sentence.count s <= Z.of_nat (size (Sentence.cells s))).
Proof.
  split; [vm_compute; reflexivity|].
  intros H. specialize (H (Sentence.mk {[ (1, 2); (2, 1) ]} (-1))).
  simpl in H. destruct H as [H _]; [by left | lia].
Qed.

(** C5, amended.  Whenever a run of public operations returns, no cell
    of a stored sentence is a known safe or a known mine; and when every
    call of the run was consistent with one board, the count of every
    stored sentence lies between 0 and the number of its cells. *)
Theorem stored_sentences_invariant (g : Minesweeper.t) (fuel : nat)
    (ops : list op) (self' : t) :
  run fuel ops (init (Minesweeper.height g) (Minesweeper.width g)) = Some self' →
  (∀ s, s ∈ knowledge self' →
        Sentence.cells s ## safes self' ∧ Sentence.cells s ## mines self') ∧
  (Forall (consistent g) ops →
   ∀ s, s ∈ knowledge self' →
        0 <= Sentence.count s <= Z.of_nat (size (Sentence.cells s))).
Proof.
  intros Hr. split.
  - destruct (run_keeps _ _ _ _ Hr (undetermined_init _ _)) as [HU _].
    intros s Hs. apply (proj1 (Forall_forall _ _) HU s Hs).
  - intros Hops s Hs.
    destruct (run_consistent_faithful g _ _ _ _ (faithful_to_init g) Hops Hr)
      as (_ & _ & HF).
    by apply (faithful_bounds _ _ _ _ HF).
Qed.

Lemma stored_sentences_invariant_witness :
  let self' := mk 3 3 {[ (1, 1) ]} ∅ {[ (1, 1) ]}
    [Sentence.mk {[ (0, 0); (0, 1); (0, 2); (1, 0); (1, 2); (2, 0); (2, 1); (2, 2) ]} 1]
    false in
  run 1 [Observe (1, 1) 1] (init 3 3) = Some self' ∧
  Forall (consistent corner_board) [Observe (1, 1) 1] ∧
  ∀ s, s ∈ knowledge self' →
       (Sentence.cells s ## safes self' ∧ Sentence.cells s ## mines self') ∧
       0 <= Sentence.count s <= Z.of_nat (size (Sentence.cells s)).
Proof.
  intros self'.
  assert (run 1 [Observe (1, 1) 1] (init 3 3) = Some self') as Hr
    by (vm_compute; reflexivity).
  assert (Forall (consistent corner_board) [Observe (1, 1) 1]) as Hops
    by (repeat constructor).
  split; [exact Hr|]. split; [exact Hops|].
  intros s Hs.
  destruct (stored_sentences_invariant corner_board 1 [Observe (1, 1) 1] self' Hr)
    as [Hu Hb].
  split; [exact (Hu s Hs) | exact (Hb Hops s Hs)].
Defined.

(** C6, as stated, fails: after the three clues of the corner board the
    two stored sentences have resolved, and both are still in
    [knowledge], as the empty sentence. *)
Lemma resolved_sentences_retained :
  run 1 corner_clues (init 3 3) = Some corner_solved ∧
  knowledge corner_solved = [empty; empty] ∧
  ¬ (∀ s, s ∈ knowledge corner_solved →
          s ≠ empty ∧
          (∃ c, c ∈ Sentence.cells s ∧ (c ∉ safes corner_solved) ∧
                (c ∉ mines corner_solved))).
Proof.
  split; [vm_compute; reflexivity|]. split; [reflexivity|].
  intros H. destruct (H empty) as [Hne _]; [by left | done].
Qed.

(** C6, amended.  No operation takes a sentence out of [knowledge]: the
    list never gets shorter.  When a call of [add_knowledge] returns,
    after calls all consistent with one board, every stored sentence is
    either the empty sentence, which is what a resolved sentence has been
    turned into, or a sentence all of whose cells are undetermined and
    whose count lies strictly between 0 and the number of its cells. *)
Theorem resolved_sentences_emptied (g : Minesweeper.t) (fuel : nat)
    (ops : list op) (o : op) (self self' : t) :
  run fuel ops (init (Minesweeper.height g) (Minesweeper.width g)) = Some self →
  exec fuel o self = Some self' →
  (length (knowledge self) ≤ length (knowledge self'))%nat ∧
  (Forall (consistent g) ops → consistent g o → (∃ c n, o = Observe c n) →
   ∀ s, s ∈ knowledge self' →
     s = empty ∨
     ((Sentence.cells s ## safes self' ∧ Sentence.cells s ## mines self') ∧
      0 < Sentence.count s < Z.of_nat (size (Sentence.cells s)))).
Proof.
  intros Hr He. split.
  - destruct (run_keeps _ _ _ _ Hr (undetermined_init _ _)) as [HU _].
    destruct (exec_keeps _ _ _ _ He HU) as [_ (_ & _ & _ & Hlen & _)]. done.
  - intros Hops Ho (c & n & ->) s Hs.
    pose proof (run_consistent_faithful g _ _ _ _ (faithful_to_init g) Hops Hr) as HF.
    destruct (exec_consistent_faithful g _ _ _ _ HF Ho He) as [(_ & _ & HF') Hst].
    apply (settled_sentence _ _ _ _ HF' (Hst c n eq_refl) Hs).
Qed.

Lemma resolved_sentences_emptied_witness :
  let self := mk 3 3 {[ (1, 1) ]} ∅ {[ (1, 1) ]}
    [Sentence.mk {[ (0, 0); (0, 1); (0, 2); (1, 0); (1, 2); (2, 0); (2, 1); (2, 2) ]} 1]
    false in
  let self' := mk 3 3 {[ (1, 1); (0, 1) ]} ∅
    {[ (1, 1); (0, 1); (2, 0); (2, 1); (2, 2) ]}
    [Sentence.mk {[ (0, 0); (0, 2); (1, 0); (1, 2) ]} 1;
     Sentence.mk {[ (0, 0); (0, 2); (1, 0); (1, 2) ]} 1] false in
  run 1 [Observe (1, 1) 1] (init 3 3) = Some self ∧
  exec 1 (Observe (0, 1) 1) self = Some self' ∧
  Forall (consistent corner_board) [Observe (1, 1) 1] ∧
  consistent corner_board (Observe (0, 1) 1) ∧
  (length (knowledge self) ≤ length (knowledge self'))%nat ∧
  ∀ s, s ∈ knowledge self' →
     s = empty ∨
     ((Sentence.cells s ## safes self' ∧ Sentence.cells s ## mines self') ∧
      0 < Sentence.count s < Z.of_nat (size (Sentence.cells s))).
Proof.
  intros self self'.
  assert (run 1 [Observe (1, 1) 1] (init 3 3) = Some self) as Hr
    by (vm_compute; reflexivity).
  assert (exec 1 (Observe (0, 1) 1) self = Some self') as He
    by (vm_compute; reflexivity).
  assert (Forall (consistent corner_board) [Observe (1, 1) 1]) as Hops
    by (repeat constructor).
  assert (consistent corner_board (Observe (0, 1) 1)) as Ho
    by (repeat constructor).
  destruct (resolved_sentences_emptied corner_board 1 [Observe (1, 1) 1]
              (Observe (0, 1) 1) self self' Hr He) as [Hlen Hs].
  split; [exact Hr|]. split; [exact He|]. split; [exact Hops|]. split; [exact Ho|].
  split; [exact Hlen|]. apply (Hs Hops Ho). by exists (0, 1), 1.
Defined.

(** C7, as stated, fails: marking as safe a cell known as a mine returns
    without reporting anything. *)
Lemma contradictory_mark_returns :
  (0, 0) ∈ mines (mark_mine (0, 0) (init 3 3)) ∧
  call_mark_safe (0, 0) (mark_mine (0, 0) (init 3 3))
    = Returns (set_changed false (mark_mine (0, 0) (init 3 3))) ∧
  ¬ fails_fast (0, 0) (mark_mine (0, 0) (init 3 3)).
Proof.
  assert ((0, 0) ∈ mines (mark_mine (0, 0) (init 3 3))) as Hm.
  { apply (bool_decide_unpack _). vm_compute. exact I. }
  split; [done|]. split; [vm_compute; reflexivity|].
  intros [_ H]. specialize (H Hm). discriminate H.
Qed.

(** C7, amended.  Marking as safe a cell already known as a mine is
    dropped without a report: the call returns, the cell does not enter
    [safes], and [moves_made], [mines], [safes] and [knowledge] are what
    they were; only the flag is lowered. *)
Theorem mark_safe_of_mine_dropped (cell : Cell) (self : t) :
  cell ∈ mines self →
  ∃ self', call_mark_safe cell self = Returns self' ∧
           moves_made self' = moves_made self ∧ mines self' = mines self ∧
           safes self' = safes self ∧ knowledge self' = knowledge self ∧
           KB_has_changed self' = false.
Proof.
  intros Hm. exists (set_changed false self). unfold call_mark_safe.
  by rewrite mark_safe_old.
Qed.

Lemma mark_safe_of_mine_dropped_witness :
  let self := mk 3 3 ∅ {[ (0, 0) ]} ∅ [] true in
  (0, 0) ∈ mines self ∧
  ∃ self', call_mark_safe (0, 0) self = Returns self' ∧
           moves_made self' = moves_made self ∧ mines self' = mines self ∧
           safes self' = safes self ∧ knowledge self' = knowledge self ∧
           KB_has_changed self' = false.
Proof.
  intros self.
  assert ((0, 0) ∈ mines self) as Hm.
  { apply (bool_decide_unpack _). vm_compute. exact I. }
  split; [exact Hm | exact (mark_safe_of_mine_dropped (0, 0) self Hm)].
Defined.

(** C8. Termination.  Every run of calls consistent with one board
    returns: each call of [add_knowledge], with its [while] loop, comes
    to an end.  The four other operations have no loop that depends on
    the state and return from any state. *)
Theorem operations_terminate (g : Minesweeper.t) (ops : list op) :
  Forall (consistent g) ops →
  (∃ fuel self',
     run fuel ops (init (Minesweeper.height g) (Minesweeper.width g)) = Some self') ∧
  (∀ self cell,
     (∃ self', exec 0 (MarkMine cell) self = Some self') ∧
     (∃ self', exec 0 (MarkSafe cell) self = Some self') ∧
     (∃ self', exec 0 SafeMove self = Some self') ∧
     (∃ self', exec 0 RandomMove self = Some self')).
Proof.
  intros Hops. split.
  - apply (run_consistent_terminates g); [apply faithful_to_init | done].
  - intros self cell. simpl. repeat split; eexists; reflexivity.
Qed.

Lemma operations_terminate_witness :
  Forall (consistent corner_board) corner_clues ∧
  ∃ fuel self', run fuel corner_clues (init 3 3) = Some self'.
Proof.
  assert (Forall (consistent corner_board) corner_clues) as Hops
    by (repeat constructor).
  split; [exact Hops|].
  exact (proj1 (operations_terminate corner_board corner_clues Hops)).
Defined.

(** C9. [make_safe_move] returns a cell of [safes] that is not in
    [moves_made] when there is one, [None] when there is none, and leaves
    the knowledge base as it was. *)
Theorem make_safe_move_exclusive (self : t) :
  (make_safe_move self).2 = self ∧
  (safes self ∖ moves_made self ≠ ∅ →
   ∃ c, (make_safe_move self).1 = Some c ∧ c ∈ safes self ∧ c ∉ moves_made self) ∧
  (safes self ∖ moves_made self = ∅ → (make_safe_move self).1 = None) ∧
  (∀ c, (make_safe_move self).1 = Some c → c ∈ safes self ∧ c ∉ moves_made self).
Proof.
  unfold make_safe_move, pop.
  set (S := safes self ∖ moves_made self).
  assert (∀ c, head (elements S) = Some c → c ∈ safes self ∧ c ∉ moves_made self) as Hin.
  { intros c Hc. assert (c ∈ S) as HcS; [|subst S; set_solver].
    apply elem_of_elements. destruct (elements S); simplify_eq/=. by left. }
  split; [by case_bool_decide|]. split; [|split].
  - intros HS. assert (size S ≠ 0%nat) as Hsz.
    { intros Hz%size_empty_inv. by apply HS, leibniz_equiv. }
    rewrite bool_decide_eq_true_2 by lia. simpl.
    destruct (elements S) as [|c l] eqn:He.
    { apply elements_empty_inv, leibniz_equiv in He. by destruct HS. }
    exists c. split; [done|]. apply Hin. by rewrite ?He.
  - intros ->. rewrite size_empty. by rewrite bool_decide_eq_false_2 by (simpl; lia).
  - case_bool_decide; simpl; [apply Hin | done].
Qed.

Lemma make_safe_move_exclusive_witness :
  let self := mk 3 3 {[ (1, 1) ]} ∅ {[ (1, 1); (0, 1) ]} [] false in
  safes self ∖ moves_made self ≠ ∅ ∧
  ∃ c, (make_safe_move self).1 = Some c ∧ c ∈ safes self ∧ c ∉ moves_made self.
Proof.
  intros self.
  assert (safes self ∖ moves_made self ≠ ∅) as Hne.
  { apply (bool_decide_unpack _). vm_compute. exact I. }
  split; [exact Hne|].
  exact (proj1 (proj2 (make_safe_move_exclusive self)) Hne).
Defined.

(** C10. The registries only grow: from any state a run has reached, a
    further run leaves every cell of [moves_made], of [safes] and of
    [mines] where it was. *)
Theorem registries_grow (h w : Z) (fuel : nat) (ops1 ops2 : list op)
    (self1 self2 : t) :
  run fuel ops1 (init h w) = Some self1 → run fuel ops2 self1 = Some self2 →
  moves_made self1 ⊆ moves_made self2 ∧ safes self1 ⊆ safes self2 ∧
  mines self1 ⊆ mines self2.
Proof.
  intros H1 H2.
  destruct (run_keeps _ _ _ _ H1 (undetermined_init _ _)) as [HU _].
  destruct (run_keeps _ _ _ _ H2 HU) as [_ (? & ? & ? & _)]. done.
Qed.

Lemma registries_grow_witness :
  let self1 := mk 3 3 {[ (1, 1) ]} ∅ {[ (1, 1) ]}
    [Sentence.mk {[ (0, 0); (0, 1); (0, 2); (1, 0); (1, 2); (2, 0); (2, 1); (2, 2) ]} 1]
    false in
  run 1 [Observe (1, 1) 1] (init 3 3) = Some self1 ∧
  run 1 [Observe (0, 1) 1; SafeMove; Observe (1, 0) 1; RandomMove] self1
    = Some corner_solved ∧
  moves_made self1 ⊆ moves_made corner_solved ∧ safes self1 ⊆ safes corner_solved ∧
  mines self1 ⊆ mines corner_solved.
Proof.
  intros self1.
  assert (run 1 [Observe (1, 1) 1] (init 3 3) = Some self1) as H1
    by (vm_compute; reflexivity).
  assert (run 1 [Observe (0, 1) 1; SafeMove; Observe (1, 0) 1; RandomMove] self1
          = Some corner_solved) as H2.
  { vm_compute. reflexivity. }
  split; [exact H1|]. split; [exact H2|].
  exact (registries_grow 3 3 1 _ _ _ _ H1 H2).
Defined.
